(** * Pokedex: the data-aggregation and search logic of [src/App.tsx]

    The development embeds the functions of the [App] component
    ([fetchPokemonDetail], [fetchInitialDisplayData], [fetchAllUrls],
    [handleSearchChange], [filteredPokemon], the two effects and the
    rendered markup's conditions) and proves the properties the
    specification states about them.

    Modelling conventions.
    - Strings are [string]; [toLowerCase] acts on the letters A-Z and
      [includes] is the substring test of [String.prototype.includes].
    - The remote API is a function [net] from URLs to fetch results; it is
      fixed for the duration of one asynchronous function and may differ
      from one to the next.
    - An asynchronous computation is a value of [Async A]: its outcome
      (resolved or rejected) together with the URLs it requested.  For a
      batch run through [Promise.all] the requests of each creature are
      listed together: the browser interleaves them, so for a batch only
      membership in the trace is meaningful.
    - React state is the record [State]; a setter is a record update and
      a handler reads the state captured by its closure. *)

From Stdlib Require Import String Ascii List Bool ZArith Arith Lia.
Import ListNotations.
Open Scope string_scope.
Open Scope list_scope.
Open Scope nat_scope.

(** ** Strings *)

Definition lower_ascii (c : ascii) : ascii :=
  let n := nat_of_ascii c in
  if (65 <=? n) && (n <=? 90) then ascii_of_nat (n + 32) else c.

Fixpoint toLowerCase (s : string) : string :=
  match s with
  | EmptyString => EmptyString
  | String c t => String (lower_ascii c) (toLowerCase t)
  end.

(** [hay.includes(needle)] *)
Fixpoint includes (hay needle : string) : bool :=
  String.prefix needle hay ||
  match hay with
  | EmptyString => false
  | String _ t => includes t needle
  end.

(** [arr.includes(x)] on an array of strings *)
Definition arr_includes (arr : list string) (x : string) : bool :=
  existsb (String.eqb x) arr.

(** ** Data model *)

Module Pokemon.
Record t : Type := mk { name : string; url : string }.
End Pokemon.

Module TypeRef.
Record t : Type := mk { name : string; url : string }.
End TypeRef.

Module TypeSlot.
Record t : Type := mk { slot : Z; type : TypeRef.t }.
End TypeSlot.

Module Sprites.
Record t : Type := mk { front_default : string }.
End Sprites.

Module PokemonDetail.
Record t : Type := mk {
  name : string;
  id : Z;
  sprites : Sprites.t;
  types : list TypeSlot.t;
  weaknesses : list string
}.
End PokemonDetail.

Definition POKEMON_DISPLAY_LIMIT : nat := 300.

(** The URL of the listing endpoint, with [POKEMON_TOTAL_LIMIT = 10000]
    spliced in. *)
Definition INDEX_URL : string := "https://pokeapi.co/api/v2/pokemon?limit=10000".

(** ** The remote API *)

(** The body of a response, as the code reads it.  [NotJson] is a body on
    which [json()] rejects; the other three are the JSON objects of the
    three endpoints.  Reading the fields of one endpoint from the object
    of another yields [undefined]. *)
Inductive Body : Type :=
| ListBody (results : list Pokemon.t)
| DetailBody (name : string) (id : Z) (sprites : Sprites.t)
             (types : list TypeSlot.t)
| TypeBody (double_damage_from : list string)
| NotJson.

Inductive FetchResult : Type :=
| NetworkError
| Response (status : nat) (body : Body).

(** [Response.ok]: the status is in the range 200-299. *)
Definition ok (status : nat) : bool := (200 <=? status) && (status <=? 299).

Definition Net : Type := string -> FetchResult.

(** ** Asynchronous computations *)

Inductive Outcome (A : Type) : Type :=
| Resolved (a : A)
| Rejected.
Arguments Resolved {A} a.
Arguments Rejected {A}.

Definition Async (A : Type) : Type := (Outcome A * list string)%type.

Definition ret {A} (a : A) : Async A := (Resolved a, []).

Definition throw {A} : Async A := (Rejected, []).

Definition bind {A B} (m : Async A) (k : A -> Async B) : Async B :=
  match m with
  | (Resolved a, tr) => let (r, tr') := k a in (r, tr ++ tr')
  | (Rejected, tr) => (Rejected, tr)
  end.

(** [try { m } catch { h }] *)
Definition try_catch {A} (m : Async A) (h : Async A) : Async A :=
  match m with
  | (Rejected, tr) => let (r, tr') := h in (r, tr ++ tr')
  | done => done
  end.

(** [try { m } finally { f }] where [f] only writes state. *)
Definition finally {A} (m : Async A) (f : A -> A) : Async A :=
  match m with
  | (Resolved a, tr) => (Resolved (f a), tr)
  | rejected => rejected
  end.

Arguments bind {A B} m k : simpl never.
Arguments try_catch {A} m h : simpl never.
Arguments finally {A} m f : simpl never.

Definition outcome {A} (m : Async A) : Outcome A := fst m.
Definition requests {A} (m : Async A) : list string := snd m.

Declare Scope async_scope.
Delimit Scope async_scope with async.
Notation "x <- m ;; k" := (bind m (fun x => k))
  (at level 100, m at next level, right associativity) : async_scope.
Notation "' pat <- m ;; k" := (bind m (fun x => match x with pat => k end))
  (at level 100, pat pattern, m at next level, right associativity) : async_scope.
Open Scope async_scope.

(** [Promise.all]: resolves with all the values, rejects if one rejects. *)
Fixpoint Promise_all {A} (ps : list (Async A)) : Async (list A) :=
  match ps with
  | [] => ret []
  | p :: rest =>
      a <- p ;;
      others <- Promise_all rest ;;
      ret (a :: others)
  end.

(** [arr.filter(p => p !== null) as T[]] *)
Fixpoint non_null {A} (l : list (option A)) : list A :=
  match l with
  | [] => []
  | Some a :: rest => a :: non_null rest
  | None :: rest => non_null rest
  end.

Section Remote.

Variable net : Net.

(** [await fetch(url)]: rejects on a network error, else resolves with the
    response. *)
Definition fetch (url : string) : Async (nat * Body) :=
  match net url with
  | NetworkError => (Rejected, [url])
  | Response status body => (Resolved (status, body), [url])
  end.

(** [await res.json()] *)
Definition json (body : Body) : Async Body :=
  match body with
  | NotJson => throw
  | parsed => ret parsed
  end.

(** The callback of [damageRelations.forEach]. *)
Definition push_new (weaknesses : list string) (relation_name : string)
  : list string :=
  if negb (arr_includes weaknesses relation_name)
  then weaknesses ++ [relation_name]
  else weaknesses.

(** [typeData.damage_relations.double_damage_from]; on an object of
    another endpoint [damage_relations] is undefined and reading its
    field throws. *)
Definition double_damage_from_of (typeData : Body) : Async (list string) :=
  match typeData with
  | TypeBody damageRelations => ret damageRelations
  | _ => throw
  end.

(** The [for (const typeInfo of detailData.types)] loop, with the array
    [weaknesses] it mutates passed along. *)
Fixpoint weakness_loop (types : list TypeSlot.t) (weaknesses : list string)
  : Async (list string) :=
  match types with
  | [] => ret weaknesses
  | typeInfo :: rest =>
      let typeUrl := TypeRef.url (TypeSlot.type typeInfo) in
      '(status, body) <- fetch typeUrl ;;
      if negb (ok status) then weakness_loop rest weaknesses
      else
        typeData <- json body ;;
        damageRelations <- double_damage_from_of typeData ;;
        weakness_loop rest (fold_left push_new damageRelations weaknesses)
  end.

(** [fetchPokemonDetail], lines 39-76.  On an object of another endpoint
    [detailData.types] is undefined and iterating over it throws. *)
Definition fetchPokemonDetail (url : string)
  : Async (option PokemonDetail.t) :=
  try_catch
    ('(status, body) <- fetch url ;;
     if negb (ok status) then ret None
     else
       detailData <- json body ;;
       match detailData with
       | DetailBody name id sprites types =>
           weaknesses <- weakness_loop types [] ;;
           ret (Some (PokemonDetail.mk name id sprites types weaknesses))
       | _ => throw
       end)
    (ret None).

End Remote.

(** ** The state of the component *)

Record State : Type := mkState {
  allPokemonUrls : list Pokemon.t;
  index_ref : nat;     (* which array [allPokemonUrls] holds: arrays are
                          compared by reference in dependency arrays *)
  pokemonDetails : list PokemonDetail.t;
  searchTerm : string;
  loading : bool;
  error : option string
}.

(** The arguments of the five [useState] calls. *)
Definition initial_state : State :=
  {| allPokemonUrls := []; index_ref := 0; pokemonDetails := [];
     searchTerm := ""; loading := true; error := None |}.

(** [setAllPokemonUrls] is only ever given a fresh array. *)
Definition setAllPokemonUrls (v : list Pokemon.t) (s : State) : State :=
  {| allPokemonUrls := v; index_ref := S (index_ref s);
     pokemonDetails := pokemonDetails s; searchTerm := searchTerm s;
     loading := loading s; error := error s |}.

Definition setPokemonDetails (v : list PokemonDetail.t) (s : State) : State :=
  {| allPokemonUrls := allPokemonUrls s; index_ref := index_ref s;
     pokemonDetails := v; searchTerm := searchTerm s;
     loading := loading s; error := error s |}.

Definition setSearchTerm (v : string) (s : State) : State :=
  {| allPokemonUrls := allPokemonUrls s; index_ref := index_ref s;
     pokemonDetails := pokemonDetails s; searchTerm := v;
     loading := loading s; error := error s |}.

Definition setLoading (v : bool) (s : State) : State :=
  {| allPokemonUrls := allPokemonUrls s; index_ref := index_ref s;
     pokemonDetails := pokemonDetails s; searchTerm := searchTerm s;
     loading := v; error := error s |}.

Definition setError (v : option string) (s : State) : State :=
  {| allPokemonUrls := allPokemonUrls s; index_ref := index_ref s;
     pokemonDetails := pokemonDetails s; searchTerm := searchTerm s;
     loading := loading s; error := v |}.

Definition INITIAL_LOAD_ERROR : string := "Error al cargar los Pokémon iniciales.".
Definition INDEX_LOAD_ERROR : string :=
  "Error al obtener la lista completa de Pokémon.".

(** What [fetchAllUrls] leaves behind.  [Broken] is the state in which
    [allPokemonUrls] holds [undefined]: the listing answered with a JSON
    object without [results], [setAllPokemonUrls(data.results)] stored
    it, and the next render throws on [allPokemonUrls.length]. *)
Inductive Loaded : Type :=
| Alive (s : State)
| Broken.

Section Handlers.

Variable net : Net.

(** The batch of [fetchInitialDisplayData], lines 95-96: every entry is
    hydrated and the [null]s are filtered out. *)
Definition hydrate_batch (batch : list Pokemon.t)
  : Async (list PokemonDetail.t) :=
  loaded <- Promise_all
              (map (fun urlInfo => fetchPokemonDetail net (Pokemon.url urlInfo))
                   batch) ;;
  ret (non_null loaded).

(** [fetchInitialDisplayData], lines 79-106. *)
Definition fetchInitialDisplayData (s : State) : Async State :=
  let s := setLoading true s in
  let s := setError None s in
  if length (allPokemonUrls s) =? 0 then ret (setLoading false s)
  else
    let initialBatchUrls := firstn POKEMON_DISPLAY_LIMIT (allPokemonUrls s) in
    finally
      (try_catch
         (loadedDetails <- hydrate_batch initialBatchUrls ;;
          ret (setPokemonDetails loadedDetails s))
         (ret (setError (Some INITIAL_LOAD_ERROR) s)))
      (setLoading false).

(** [fetchAllUrls], lines 110-128. *)
Definition fetchAllUrls (s : State) : Async Loaded :=
  try_catch
    ('(status, body) <- fetch net INDEX_URL ;;
     if negb (ok status) then throw
     else
       data <- json body ;;
       match data with
       | ListBody results => ret (Alive (setAllPokemonUrls results s))
       | _ => ret Broken
       end)
    (ret (Alive (setLoading false (setError (Some INDEX_LOAD_ERROR) s)))).

(** [handleSearchChange], lines 146-191, with [raw] the value of the
    input element.  The call of [fetchInitialDisplayData] is not
    awaited; the function is followed here until that call has
    finished too. *)
Definition handleSearchChange (s : State) (raw : string) : Async State :=
  let value := toLowerCase raw in
  let s' := setSearchTerm value s in
  if String.eqb value "" then
    let s' := setLoading true s' in
    fetchInitialDisplayData s'
  else
    let filteredInDisplay :=
      filter (fun p => includes (PokemonDetail.name p) value)
             (pokemonDetails s) in
    if 0 <? length filteredInDisplay then ret s'
    else
      let s' := setLoading true s' in
      let foundPokemonUrl :=
        find (fun p => includes (Pokemon.name p) value) (allPokemonUrls s) in
      match foundPokemonUrl with
      | Some found =>
          detail <- fetchPokemonDetail net (Pokemon.url found) ;;
          match detail with
          | Some d => ret (setLoading false (setPokemonDetails [d] s'))
          | None => ret (setLoading false (setPokemonDetails [] s'))
          end
      | None => ret (setLoading false (setPokemonDetails [] s'))
      end.

End Handlers.

(** [filteredPokemon], lines 195-205: the records the page shows. *)
Definition filteredPokemon (s : State) : list PokemonDetail.t :=
  if String.eqb (searchTerm s) "" then pokemonDetails s
  else filter (fun pokemon =>
                 includes (toLowerCase (PokemonDetail.name pokemon))
                          (searchTerm s))
              (pokemonDetails s).

(** ** The rendered page, lines 208-268 *)

Definition LOADING_INDEX : string := "Cargando lista completa de Pokémon...".
Definition LOADING_DISPLAY : string := "Cargando Pokémon para mostrar...".

Record View : Type := mkView {
  error_banner : option string;      (* lines 224-228 *)
  loading_text : option string;      (* lines 230-234 *)
  not_found_text : bool;             (* lines 236-239 *)
  cards : list PokemonDetail.t;      (* lines 241-248 *)
  showing_first : option nat;        (* lines 252-256 *)
  no_results_text : bool;            (* lines 257-261 *)
  results_text : bool                (* lines 262-266 *)
}.

Definition render (s : State) : View :=
  let shown := filteredPokemon s in
  let typed := negb (String.eqb (searchTerm s) "") in
  let not_found := negb (loading s) && (length shown =? 0) && typed in
  {| error_banner := error s;
     loading_text :=
       if loading s
       then Some (if length (allPokemonUrls s) =? 0
                  then LOADING_INDEX else LOADING_DISPLAY)
       else None;
     not_found_text := not_found;
     cards := if not_found then []
              else if negb (loading s) then shown else [];
     showing_first :=
       if negb (loading s) && negb typed && (0 <? length (pokemonDetails s))
       then Some (length (pokemonDetails s)) else None;
     no_results_text := negb (loading s) && typed && (length shown =? 0);
     results_text := negb (loading s) && typed && (0 <? length shown) |}.

(** ** The component at run time

    A handler runs up to its first [await]; the state it wrote is
    committed, the effects whose dependencies changed run, and the rest of
    the handler runs when the awaited requests have been answered.  In
    between, the user may type again and other pending continuations may
    run.  The updates made by one continuation are committed together. *)

Inductive Task : Type :=
| AwaitIndex                            (* [fetchAllUrls], line 114 *)
| AwaitBatch (batch : list Pokemon.t)   (* [fetchInitialDisplayData], line 96 *)
| AwaitDetail (url : string).           (* [handleSearchChange], line 174 *)

(** [fetchInitialDisplayData] up to its [await], lines 79-95. *)
Definition fetchInitialDisplayData_start (s : State) : State * list Task :=
  let s := setLoading true s in
  let s := setError None s in
  if length (allPokemonUrls s) =? 0 then (setLoading false s, [])
  else (s, [AwaitBatch (firstn POKEMON_DISPLAY_LIMIT (allPokemonUrls s))]).

(** [handleSearchChange] up to its [await], lines 146-174. *)
Definition handleSearchChange_start (s : State) (raw : string)
  : State * list Task :=
  let value := toLowerCase raw in
  let s' := setSearchTerm value s in
  if String.eqb value "" then
    fetchInitialDisplayData_start (setLoading true s')
  else
    let filteredInDisplay :=
      filter (fun p => includes (PokemonDetail.name p) value)
             (pokemonDetails s) in
    if 0 <? length filteredInDisplay then (s', [])
    else
      let s' := setLoading true s' in
      match find (fun p => includes (Pokemon.name p) value)
                 (allPokemonUrls s) with
      | Some found => (s', [AwaitDetail (Pokemon.url found)])
      | None => (setLoading false (setPokemonDetails [] s'), [])
      end.

(** The rest of each function, applied to the state current when the
    answers arrive. *)
Definition resume (net : Net) (task : Task) (s : State) : Async Loaded :=
  match task with
  | AwaitIndex => fetchAllUrls net s
  | AwaitBatch batch =>
      s' <- finally
              (try_catch
                 (loadedDetails <- hydrate_batch net batch ;;
                  ret (setPokemonDetails loadedDetails s))
                 (ret (setError (Some INITIAL_LOAD_ERROR) s)))
              (setLoading false) ;;
      ret (Alive s')
  | AwaitDetail url =>
      detail <- fetchPokemonDetail net url ;;
      match detail with
      | Some d => ret (Alive (setLoading false (setPokemonDetails [d] s)))
      | None => ret (Alive (setLoading false (setPokemonDetails [] s)))
      end
  end.

Definition error_eqb (a b : option string) : bool :=
  match a, b with
  | None, None => true
  | Some x, Some y => String.eqb x y
  | _, _ => false
  end.

(** The dependency arrays, lines 133 and 143.  The callback
    [fetchInitialDisplayData] in the second one is recreated when
    [allPokemonUrls] holds another array (line 106). *)
Definition deps1_same (prev cur : State) : bool :=
  (length (allPokemonUrls prev) =? length (allPokemonUrls cur))
  && error_eqb (error prev) (error cur).

Definition deps2_same (prev cur : State) : bool :=
  (length (allPokemonUrls prev) =? length (allPokemonUrls cur))
  && (length (pokemonDetails prev) =? length (pokemonDetails cur))
  && Bool.eqb (loading prev) (loading cur)
  && (index_ref prev =? index_ref cur).

(** The body of the first effect, lines 130-132. *)
Definition effect1 (s : State) : list Task :=
  if (length (allPokemonUrls s) =? 0)
     && negb (match error s with Some _ => true | None => false end)
  then [AwaitIndex] else [].

(** The body of the second effect, lines 138-142. *)
Definition effect2 (s : State) : State * list Task :=
  if (0 <? length (allPokemonUrls s)) && (length (pokemonDetails s) =? 0)
     && loading s
  then fetchInitialDisplayData_start s
  else if (0 <? length (allPokemonUrls s)) && (0 <? length (pokemonDetails s))
          && loading s
  then (setLoading false s, [])
  else (s, []).

(** The effects after the render of [cur], which follows the render of
    [prev]. *)
Definition effects (prev cur : State) : State * list Task :=
  let started1 := if deps1_same prev cur then [] else effect1 cur in
  let '(s2, started2) :=
    if deps2_same prev cur then (cur, []) else effect2 cur in
  (s2, started1 ++ started2).

(** A commit: the render of the new state, and the render that the
    effects' own updates cause. *)
Definition commit (prev cur : State) : State * list Task :=
  let '(s1, started1) := effects prev cur in
  let '(s2, started2) := effects cur s1 in
  (s2, started1 ++ started2).

Record Config : Type := mkConfig {
  state : State;
  pending : list Task;       (* requests in flight *)
  log : list string;         (* URLs of the answered requests *)
  crashed : bool             (* a render threw *)
}.

Inductive Label : Type :=
| Input (raw : string)               (* the user edits the search box *)
| Answer (i : nat) (net : Net).      (* the [i]-th pending task resumes *)

(** The first render: both effects run. *)
Definition mount : Config :=
  let started1 := effect1 initial_state in
  let '(s2, started2) := effect2 initial_state in
  {| state := s2; pending := started1 ++ started2; log := [];
     crashed := false |}.

Fixpoint remove_nth {A} (i : nat) (l : list A) : list A :=
  match l, i with
  | [], _ => []
  | _ :: rest, 0 => rest
  | a :: rest, S j => a :: remove_nth j rest
  end.

Definition step (c : Config) (l : Label) : Config :=
  if crashed c then c
  else
    match l with
    | Input raw =>
        let '(s1, started) := handleSearchChange_start (state c) raw in
        let '(s2, started') := commit (state c) s1 in
        {| state := s2; pending := pending c ++ started ++ started';
           log := log c; crashed := false |}
    | Answer i net =>
        match nth_error (pending c) i with
        | None => c
        | Some task =>
            let rest := remove_nth i (pending c) in
            let run := resume net task (state c) in
            match outcome run with
            | Resolved (Alive s1) =>
                let '(s2, started) := commit (state c) s1 in
                {| state := s2; pending := rest ++ started;
                   log := log c ++ requests run; crashed := false |}
            | Resolved Broken =>
                {| state := state c; pending := rest;
                   log := log c ++ requests run; crashed := true |}
            | Rejected =>
                {| state := state c; pending := rest;
                   log := log c ++ requests run; crashed := false |}
            end
        end
    end.

Definition run (c : Config) (ls : list Label) : Config := fold_left step ls c.

(** ** Notions used in the statements *)

(** The record that hydrating [url] yields, [None] when there is none. *)
Definition detail_of (net : Net) (url : string) : option PokemonDetail.t :=
  match outcome (fetchPokemonDetail net url) with
  | Resolved r => r
  | Rejected => None
  end.

(** The records of a batch, in the order of the batch. *)
Definition records (net : Net) (batch : list Pokemon.t)
  : list PokemonDetail.t :=
  non_null (map (fun e => detail_of net (Pokemon.url e)) batch).

(** The detail request itself fails: no answer, an answer with a
    non-success status, or a body that is not the JSON of a creature. *)
Definition detail_fetch_failed (net : Net) (url : string) : bool :=
  match net url with
  | NetworkError => true
  | Response status body =>
      negb (ok status) ||
      match body with DetailBody _ _ _ _ => false | _ => true end
  end.

(** No hydrated record has a name that contains the lowered query, as the
    test of line 160 sees it. *)
Definition no_match_in_display (s : State) (raw : string) : Prop :=
  forall p, In p (pokemonDetails s) ->
            includes (PokemonDetail.name p) (toLowerCase raw) = false.

(** No entry of the index has a name that contains the lowered query. *)
Definition no_match_in_index (s : State) (raw : string) : Prop :=
  forall e, In e (allPokemonUrls s) ->
            includes (Pokemon.name e) (toLowerCase raw) = false.

(** [found] is the first entry of the index whose name contains the
    lowered query: the result of [find], line 170. *)
Definition first_match_in_index (s : State) (raw : string)
    (found : Pokemon.t) : Prop :=
  find (fun p => includes (Pokemon.name p) (toLowerCase raw))
       (allPokemonUrls s)
  = Some found.

(** The listing request fails: no answer, an answer with a non-success
    status, or a body on which [json()] rejects. *)
Definition index_fetch_failed (net : Net) : bool :=
  match net INDEX_URL with
  | NetworkError => true
  | Response status body =>
      negb (ok status) ||
      match body with NotJson => true | _ => false end
  end.

(** [s'] differs from [s] in its flags only: [loading] at will, and
    [error] at most by being cleared, which happens only when the index
    is loaded. *)
Definition flags_only (s s' : State) : Prop :=
  allPokemonUrls s' = allPokemonUrls s
  /\ index_ref s' = index_ref s
  /\ pokemonDetails s' = pokemonDetails s
  /\ searchTerm s' = searchTerm s
  /\ (error s' = error s \/ (error s' = None /\ allPokemonUrls s <> [])).

(** The index has been stored, once and for all, and it is [R]. *)
Definition index_settled (R : list Pokemon.t) (c : Config) : Prop :=
  crashed c = false
  /\ allPokemonUrls (state c) = R
  /\ error (state c) = None
  /\ ~ In AwaitIndex (pending c)
  /\ (R = [] -> pending c = [] /\ pokemonDetails (state c) = []).

(** The index could not be loaded and the page says so. *)
Definition index_load_failed (c : Config) : Prop :=
  crashed c = false
  /\ pending c = []
  /\ allPokemonUrls (state c) = []
  /\ pokemonDetails (state c) = []
  /\ loading (state c) = false
  /\ error (state c) = Some INDEX_LOAD_ERROR.

(** The state a handler leaves behind. *)
Definition settle (m : Async State) (s : State) : State :=
  match outcome m with
  | Resolved s' => s'
  | Rejected => s
  end.

(** ** A sample remote API, used to exercise the statements *)

Module Sample.

Definition art : Sprites.t := Sprites.mk "front.png".

Definition type_of (n : string) : TypeSlot.t :=
  TypeSlot.mk 1 (TypeRef.mk n (String.append "t/" n)).

Definition bulbasaur : Pokemon.t := Pokemon.mk "bulbasaur" "p/1".
Definition charmander : Pokemon.t := Pokemon.mk "charmander" "p/4".
Definition pikachu : Pokemon.t := Pokemon.mk "pikachu" "p/25".
Definition paras : Pokemon.t := Pokemon.mk "paras" "p/46".
Definition gengar : Pokemon.t := Pokemon.mk "gengar" "p/94".
Definition mew : Pokemon.t := Pokemon.mk "mew" "p/151".

Definition index : list Pokemon.t :=
  [bulbasaur; charmander; pikachu; paras; gengar; mew].

(** The detail of charmander answers 404, the type electric does not
    answer at all, the type ghost answers 503. *)
Definition api : Net := fun url =>
  if String.eqb url INDEX_URL then Response 200 (ListBody index)
  else if String.eqb url "p/1" then
    Response 200 (DetailBody "bulbasaur" 1 art
                             [type_of "grass"; type_of "poison"])
  else if String.eqb url "p/4" then Response 404 NotJson
  else if String.eqb url "p/25" then
    Response 200 (DetailBody "pikachu" 25 art [type_of "electric"])
  else if String.eqb url "p/46" then
    Response 200 (DetailBody "paras" 46 art [type_of "bug"; type_of "grass"])
  else if String.eqb url "p/94" then
    Response 200 (DetailBody "gengar" 94 art
                             [type_of "ghost"; type_of "poison"])
  else if String.eqb url "p/150" then
    Response 200 (DetailBody "mewtwo" 150 art [type_of "psychic"])
  else if String.eqb url "p/151" then
    Response 200 (DetailBody "mew" 151 art [type_of "psychic"])
  else if String.eqb url "t/grass" then
    Response 200 (TypeBody ["flying"; "poison"; "bug"; "fire"; "ice"])
  else if String.eqb url "t/poison" then
    Response 200 (TypeBody ["ground"; "psychic"])
  else if String.eqb url "t/bug" then
    Response 200 (TypeBody ["flying"; "rock"; "fire"])
  else if String.eqb url "t/psychic" then
    Response 200 (TypeBody ["bug"; "ghost"; "dark"])
  else if String.eqb url "t/electric" then NetworkError
  else if String.eqb url "t/ghost" then Response 503 NotJson
  else Response 404 NotJson.

(** A remote API that answers every request with status 500. *)
Definition down : Net := fun _ => Response 500 NotJson.

Definition bulbasaur_detail : PokemonDetail.t :=
  PokemonDetail.mk "bulbasaur" 1 art [type_of "grass"; type_of "poison"]
                   ["flying"; "poison"; "bug"; "fire"; "ice"; "ground";
                    "psychic"].

Definition paras_detail : PokemonDetail.t :=
  PokemonDetail.mk "paras" 46 art [type_of "bug"; type_of "grass"]
                   ["flying"; "rock"; "fire"; "poison"; "bug"; "ice"].

Definition gengar_detail : PokemonDetail.t :=
  PokemonDetail.mk "gengar" 94 art [type_of "ghost"; type_of "poison"]
                   ["ground"; "psychic"].

Definition mew_detail : PokemonDetail.t :=
  PokemonDetail.mk "mew" 151 art [type_of "psychic"]
                   ["bug"; "ghost"; "dark"].

Definition mewtwo_detail : PokemonDetail.t :=
  PokemonDetail.mk "mewtwo" 150 art [type_of "psychic"]
                   ["bug"; "ghost"; "dark"].

(** A record whose name, as the remote API spelled it, is capitalised. *)
Definition Mew_detail : PokemonDetail.t :=
  PokemonDetail.mk "Mew" 151 art [type_of "psychic"]
                   ["bug"; "ghost"; "dark"].

(** A page that shows the capitalised record, with mewtwo in the index. *)
Definition showing_Mew : State :=
  {| allPokemonUrls := [Pokemon.mk "mewtwo" "p/150"]; index_ref := 1;
     pokemonDetails := [Mew_detail]; searchTerm := "";
     loading := false; error := None |}.


(** A page that shows bulbasaur only, with the whole index loaded. *)
Definition showing_bulbasaur : State :=
  {| allPokemonUrls := index; index_ref := 1;
     pokemonDetails := [bulbasaur_detail]; searchTerm := "";
     loading := false; error := None |}.

End Sample.

(** ** The card, [src/pokemonCard.tsx] *)

Definition DEFAULT_TYPE_COLOR : string := "bg-gray-300 text-gray-800".

(** [getTypeColorClass], lines 29-68: a [switch] on the type name. *)
Definition getTypeColorClass (type : string) : string :=
  if String.eqb type "normal" then "bg-gray-400 text-gray-900"
  else if String.eqb type "fire" then "bg-red-500 text-white"
  else if String.eqb type "water" then "bg-blue-500 text-white"
  else if String.eqb type "grass" then "bg-green-500 text-white"
  else if String.eqb type "electric" then "bg-yellow-400 text-gray-900"
  else if String.eqb type "ice" then "bg-blue-200 text-blue-800"
  else if String.eqb type "fighting" then "bg-orange-700 text-white"
  else if String.eqb type "poison" then "bg-purple-500 text-white"
  else if String.eqb type "ground" then "bg-yellow-700 text-white"
  else if String.eqb type "flying" then "bg-indigo-400 text-white"
  else if String.eqb type "psychic" then "bg-pink-500 text-white"
  else if String.eqb type "bug" then "bg-lime-500 text-white"
  else if String.eqb type "rock" then "bg-stone-500 text-white"
  else if String.eqb type "ghost" then "bg-violet-700 text-white"
  else if String.eqb type "dragon" then "bg-indigo-700 text-white"
  else if String.eqb type "steel" then "bg-gray-600 text-white"
  else if String.eqb type "fairy" then "bg-pink-300 text-white"
  else DEFAULT_TYPE_COLOR.

(** The labels of the [case]s of [getTypeColorClass]. *)
Definition case_labels : list string :=
  ["normal"; "fire"; "water"; "grass"; "electric"; "ice"; "fighting";
   "poison"; "ground"; "flying"; "psychic"; "bug"; "rock"; "ghost";
   "dragon"; "steel"; "fairy"].

(** The [sprites] object as the card reads it.  [official_artwork] is
    [sprites.other?.["official-artwork"]?.front_default]: [None] when a
    link of the chain is undefined. *)
Module CardSprites.
Record t : Type := mk {
  front_default : string;
  official_artwork : option string
}.
End CardSprites.

(** The [pokemon] property of the card, lines 4-27. *)
Module CardProps.
Record t : Type := mk {
  name : string;
  id : Z;
  sprites : CardSprites.t;
  types : list TypeSlot.t;
  weaknesses : list string;
  pokemon_name : option string;
  form_name : option string
}.
End CardProps.

(** A [span] of the card: its React key, its classes and its text. *)
Module Badge.
Record t : Type := mk { key : string; className : string; text : string }.
End Badge.

Module Card.
Record t : Type := mk {
  title : string;                  (* the [h2], lines 82-84 *)
  img_src : string;                (* line 86 *)
  img_alt : string;                (* line 87 *)
  type_badges : list Badge.t;      (* lines 93-102 *)
  weakness_badges : list Badge.t;  (* lines 109-116 *)
  no_data : bool                   (* line 118 *)
}.
End Card.

Definition BADGE_CLASSES : string :=
  "px-2 py-1 text-xs font-semibold rounded-full ".

(** A string in a condition: the empty string is falsy. *)
Definition truthy (o : option string) : bool :=
  match o with
  | Some v => negb (String.eqb v "")
  | None => false
  end.

(** An optional string spliced into a template literal. *)
Definition spliced (o : option string) : string :=
  match o with
  | Some v => v
  | None => "undefined"
  end.

(** [PokemonCard], lines 70-123. *)
Definition PokemonCard (pokemon : CardProps.t) : Card.t :=
  let displayName :=
    if truthy (CardProps.form_name pokemon)
       && negb (String.eqb (spliced (CardProps.form_name pokemon)) "default")
    then String.append (spliced (CardProps.pokemon_name pokemon))
           (String.append " ("
              (String.append (spliced (CardProps.form_name pokemon)) ")"))
    else CardProps.name pokemon in
  let imageUrl :=
    if truthy (CardSprites.official_artwork (CardProps.sprites pokemon))
    then spliced (CardSprites.official_artwork (CardProps.sprites pokemon))
    else CardSprites.front_default (CardProps.sprites pokemon) in
  {| Card.title := displayName;
     Card.img_src := imageUrl;
     Card.img_alt := displayName;
     Card.type_badges :=
       map (fun typeInfo =>
              let n := TypeRef.name (TypeSlot.type typeInfo) in
              Badge.mk n (String.append BADGE_CLASSES (getTypeColorClass n)) n)
           (CardProps.types pokemon);
     Card.weakness_badges :=
       if 0 <? length (CardProps.weaknesses pokemon)
       then map (fun weakness =>
                   Badge.mk weakness
                     (String.append BADGE_CLASSES "bg-red-200 text-red-800")
                     weakness)
                (CardProps.weaknesses pokemon)
       else [];
     Card.no_data := negb (0 <? length (CardProps.weaknesses pokemon)) |}.

(** The object that [App] hands to the card, line 245: the record made by
    [fetchPokemonDetail], which has neither [pokemon_name] nor
    [form_name].  Its [sprites] is the object of the remote API as it
    came; [artwork] is the part of it that the interface of [App] does
    not declare. *)
Definition card_props (d : PokemonDetail.t) (artwork : option string)
  : CardProps.t :=
  {| CardProps.name := PokemonDetail.name d;
     CardProps.id := PokemonDetail.id d;
     CardProps.sprites :=
       CardSprites.mk (Sprites.front_default (PokemonDetail.sprites d))
                      artwork;
     CardProps.types := PokemonDetail.types d;
     CardProps.weaknesses := PokemonDetail.weaknesses d;
     CardProps.pokemon_name := None;
     CardProps.form_name := None |}.

(** ** Further notions used in the statements *)

(** The request for the type [t] is answered with a success status and
    lists [n] among the types that deal double damage. *)
Definition listed_by (net : Net) (t : TypeSlot.t) (n : string) : Prop :=
  exists status rel,
    net (TypeRef.url (TypeSlot.type t)) = Response status (TypeBody rel)
    /\ ok status = true
    /\ In n rel.

(** The detail request gets no answer, or an answer with a non-success
    status. *)
Definition detail_unanswered (net : Net) (url : string) : bool :=
  match net url with
  | NetworkError => true
  | Response status _ => negb (ok status)
  end.

(** The request for the type [t] does not make the loop throw: it is
    answered, and either the status is not a success (the loop goes on to
    the next type) or the body is the JSON of a type. *)
Definition type_answered (net : Net) (t : TypeSlot.t) : Prop :=
  exists status body,
    net (TypeRef.url (TypeSlot.type t)) = Response status body
    /\ (ok status = false \/ exists rel, body = TypeBody rel).


(** The request for a type is answered with a non-success status. *)
Definition type_refused (net : Net) (t : TypeSlot.t) : Prop :=
  exists status body,
    net (TypeRef.url (TypeSlot.type t)) = Response status body
    /\ ok status = false.

(** The user types something, or a request is answered: any label but the
    clearing of the search box. *)
Definition keeps_query (l : Label) : Prop :=
  match l with
  | Input raw => raw <> ""
  | Answer _ _ => True
  end.

(** No hydrated record has a lowered name that contains the lowered
    query: the filter of the page, line 203, keeps none. *)
Definition nothing_to_show (s : State) (raw : string) : Prop :=
  forall p, In p (pokemonDetails s) ->
            includes (toLowerCase (PokemonDetail.name p)) (toLowerCase raw)
            = false.

(** The hydrated set and every batch in flight fit in the display
    window. *)
Definition within_window (c : Config) : Prop :=
  length (pokemonDetails (state c)) <= POKEMON_DISPLAY_LIMIT
  /\ forall batch, In (AwaitBatch batch) (pending c) ->
                   length batch <= POKEMON_DISPLAY_LIMIT.

(** * Properties *)

(** ** Asynchronous computations *)

Lemma outcome_bind {A B} (m : Async A) (k : A -> Async B) :
  outcome (bind m k) =
  match outcome m with
  | Resolved a => outcome (k a)
  | Rejected => Rejected
  end.
Proof.
  destruct m as [[a|] tr]; unfold bind; simpl; [destruct (k a)|];
    reflexivity.
Qed.

Lemma requests_bind {A B} (m : Async A) (k : A -> Async B) :
  requests (bind m k) =
  match outcome m with
  | Resolved a => requests m ++ requests (k a)
  | Rejected => requests m
  end.
Proof.
  destruct m as [[a|] tr]; unfold bind; simpl; [destruct (k a)|];
    reflexivity.
Qed.

Lemma outcome_try_catch_ret {A} (m : Async A) (a : A) :
  outcome (try_catch m (ret a)) =
  Resolved match outcome m with Resolved x => x | Rejected => a end.
Proof. destruct m as [[x|] tr]; reflexivity. Qed.

Lemma requests_try_catch_ret {A} (m : Async A) (a : A) :
  requests (try_catch m (ret a)) = requests m.
Proof.
  destruct m as [[x|] tr]; unfold try_catch; simpl;
    [reflexivity | apply app_nil_r].
Qed.

Lemma outcome_finally {A} (m : Async A) (f : A -> A) :
  outcome (finally m f) =
  match outcome m with
  | Resolved a => Resolved (f a)
  | Rejected => Rejected
  end.
Proof. destruct m as [[x|] tr]; reflexivity. Qed.

Lemma requests_finally {A} (m : Async A) (f : A -> A) :
  requests (finally m f) = requests m.
Proof. destruct m as [[x|] tr]; reflexivity. Qed.

Lemma async_eq {A} (m : Async A) : m = (outcome m, requests m).
Proof. destruct m; reflexivity. Qed.

(** ** Hydration of one creature *)

Section Hydration.

Variable net : Net.

Lemma arr_includes_In (arr : list string) (x : string) :
  arr_includes arr x = true <-> In x arr.
Proof.
  unfold arr_includes. rewrite existsb_exists. split.
  - intros [y [Hy Heq]]. apply String.eqb_eq in Heq. now subst.
  - intros H. exists x. split; [assumption | apply String.eqb_refl].
Qed.

Lemma push_new_NoDup (w : list string) (n : string) :
  NoDup w -> NoDup (push_new w n).
Proof.
  intros Hw. unfold push_new.
  destruct (arr_includes w n) eqn:E; simpl; [assumption|].
  apply NoDup_app; [assumption | repeat constructor; intros [] |].
  intros x Hx [Hn|[]]. subst x.
  apply arr_includes_In in Hx. congruence.
Qed.

Lemma fold_push_new_NoDup (rel w : list string) :
  NoDup w -> NoDup (fold_left push_new rel w).
Proof.
  revert w. induction rel as [|n rel IH]; intros w Hw; simpl.
  - assumption.
  - apply IH, push_new_NoDup, Hw.
Qed.

Lemma push_new_incl (w : list string) (n x : string) :
  In x (push_new w n) <-> In x w \/ x = n.
Proof.
  unfold push_new. destruct (arr_includes w n) eqn:E; simpl.
  - apply arr_includes_In in E. split; [tauto|]. intros [H|H]; congruence.
  - rewrite in_app_iff. simpl. firstorder congruence.
Qed.

Lemma fold_push_new_In (rel w : list string) (x : string) :
  In x (fold_left push_new rel w) <-> In x w \/ In x rel.
Proof.
  revert w. induction rel as [|n rel IH]; intros w; simpl.
  - tauto.
  - rewrite IH, push_new_incl. firstorder congruence.
Qed.

Lemma weakness_loop_NoDup (types : list TypeSlot.t) :
  forall w r,
    NoDup w ->
    outcome (weakness_loop net types w) = Resolved r ->
    NoDup r.
Proof.
  induction types as [|typeInfo rest IH]; intros w r Hw; simpl.
  - intros H. injection H as <-. assumption.
  - rewrite outcome_bind. unfold fetch.
    destruct (net _) as [|status body]; simpl; [discriminate|].
    destruct (ok status); simpl.
    + rewrite outcome_bind.
      destruct body; simpl; try discriminate.
      rewrite outcome_bind. simpl.
      apply IH, fold_push_new_NoDup, Hw.
    + apply IH, Hw.
Qed.

(** What a resolved hydration looks like. *)
Lemma fetchPokemonDetail_Some (url : string) (d : PokemonDetail.t) :
  outcome (fetchPokemonDetail net url) = Resolved (Some d) ->
  exists status name id sprites types,
    net url = Response status (DetailBody name id sprites types)
    /\ ok status = true
    /\ outcome (weakness_loop net types []) =
         Resolved (PokemonDetail.weaknesses d)
    /\ d = PokemonDetail.mk name id sprites types
                            (PokemonDetail.weaknesses d).
Proof.
  unfold fetchPokemonDetail.
  rewrite outcome_try_catch_ret, outcome_bind. unfold fetch.
  destruct (net url) as [|status body] eqn:Hnet; simpl; [discriminate|].
  destruct (ok status) eqn:Hok; simpl; [|discriminate].
  rewrite outcome_bind.
  destruct body as [results|name id sprites types|rel|]; simpl;
    try discriminate.
  rewrite outcome_bind.
  destruct (outcome (weakness_loop net types [])) as [w|] eqn:Hw; simpl;
    [|discriminate].
  intros H. injection H as <-. simpl.
  exists status, name, id, sprites, types. auto.
Qed.

(** [fetchPokemonDetail] never rejects: every failure is turned into
    [null] by its [catch]. *)
Lemma fetchPokemonDetail_resolves (url : string) :
  outcome (fetchPokemonDetail net url) = Resolved (detail_of net url).
Proof.
  unfold detail_of, fetchPokemonDetail.
  rewrite outcome_try_catch_ret. reflexivity.
Qed.

Lemma detail_fetch_failed_None (url : string) :
  detail_fetch_failed net url = true -> detail_of net url = None.
Proof.
  unfold detail_fetch_failed, detail_of, fetchPokemonDetail.
  rewrite outcome_try_catch_ret, outcome_bind. unfold fetch.
  destruct (net url) as [|status body]; simpl; [reflexivity|].
  destruct (ok status); simpl; [|reflexivity].
  rewrite outcome_bind. destruct body; simpl; intros H;
    try reflexivity; discriminate.
Qed.

End Hydration.

(** ** The weakness list (C1, C5) *)

(** C1.  The weaknesses of every record that [fetchPokemonDetail] produces
    hold no name twice: each name of the list occurs in it exactly once,
    also when the lists of two of the creature's types overlap. *)
Theorem weaknesses_no_duplicates (net : Net) (url : string)
    (d : PokemonDetail.t) :
  outcome (fetchPokemonDetail net url) = Resolved (Some d) ->
  NoDup (PokemonDetail.weaknesses d)
  /\ forall n, In n (PokemonDetail.weaknesses d) ->
               count_occ string_dec (PokemonDetail.weaknesses d) n = 1.
Proof.
  intros H.
  destruct (fetchPokemonDetail_Some net url d H)
    as (status & name & id & sprites & types & _ & _ & Hw & _).
  assert (Hnd : NoDup (PokemonDetail.weaknesses d)).
  { eapply weakness_loop_NoDup; [constructor | exact Hw]. }
  split; [exact Hnd|].
  intros n Hn. apply NoDup_count_occ'; assumption.
Qed.

(** Paras is of the types bug and grass, which both list flying and fire. *)
Lemma weaknesses_no_duplicates_witness :
  outcome (fetchPokemonDetail Sample.api "p/46")
  = Resolved (Some Sample.paras_detail)
  /\ NoDup (PokemonDetail.weaknesses Sample.paras_detail)
  /\ forall n, In n (PokemonDetail.weaknesses Sample.paras_detail) ->
               count_occ string_dec
                         (PokemonDetail.weaknesses Sample.paras_detail) n = 1.
Proof.
  split; [reflexivity|].
  apply (weaknesses_no_duplicates Sample.api "p/46" Sample.paras_detail).
  reflexivity.
Defined.

(** A type whose request is answered with a non-success status leaves the
    loop as if the type were not listed. *)
Lemma weakness_loop_skip (net : Net) (t : TypeSlot.t)
    (after : list TypeSlot.t) (tstatus : nat) (tbody : Body) :
  net (TypeRef.url (TypeSlot.type t)) = Response tstatus tbody ->
  ok tstatus = false ->
  forall before w,
    outcome (weakness_loop net (before ++ t :: after) w)
    = outcome (weakness_loop net (before ++ after) w).
Proof.
  intros Hnet Hok. induction before as [|b before IH]; intros w.
  - cbn [app weakness_loop]. rewrite outcome_bind. unfold fetch.
    rewrite Hnet. simpl. rewrite Hok. reflexivity.
  - cbn [app weakness_loop]. rewrite !outcome_bind. unfold fetch.
    destruct (net (TypeRef.url (TypeSlot.type b))) as [|status body];
      simpl; [reflexivity|].
    destruct (ok status); simpl; [|apply IH].
    rewrite !outcome_bind.
    destruct body; simpl; try reflexivity.
    rewrite !outcome_bind. simpl. apply IH.
Qed.

(** C5, as amended.  When the detail request succeeded, the request for
    one of the creature's types is answered with a non-success status,
    and the loop over the other types runs to its end without throwing,
    with the weaknesses [w], the record is still produced: it lists all
    the types, and its weaknesses are [w], those accumulated from the
    other types. *)
Theorem type_failure_status_skipped (net : Net) (url : string)
    (status : nat) (name : string) (id : Z) (sprites : Sprites.t)
    (before : list TypeSlot.t) (t : TypeSlot.t) (after : list TypeSlot.t)
    (tstatus : nat) (tbody : Body) (w : list string) :
  net url = Response status (DetailBody name id sprites (before ++ t :: after)) ->
  ok status = true ->
  net (TypeRef.url (TypeSlot.type t)) = Response tstatus tbody ->
  ok tstatus = false ->
  outcome (weakness_loop net (before ++ after) []) = Resolved w ->
  outcome (fetchPokemonDetail net url)
  = Resolved (Some (PokemonDetail.mk name id sprites (before ++ t :: after) w)).
Proof.
  intros Hnet Hok Ht Htok Hw.
  unfold fetchPokemonDetail.
  rewrite outcome_try_catch_ret, outcome_bind. unfold fetch.
  rewrite Hnet. simpl. rewrite Hok. simpl.
  rewrite outcome_bind. simpl. rewrite outcome_bind.
  rewrite (weakness_loop_skip net t after tstatus tbody Ht Htok), Hw.
  reflexivity.
Qed.

(** Gengar: the type ghost answers 503, the type poison is read. *)
Lemma type_failure_status_skipped_witness :
  outcome (fetchPokemonDetail Sample.api "p/94")
  = Resolved (Some Sample.gengar_detail).
Proof.
  apply (type_failure_status_skipped Sample.api "p/94" 200 "gengar" 94%Z
           Sample.art [] (Sample.type_of "ghost") [Sample.type_of "poison"]
           503 NotJson ["ground"; "psychic"]); reflexivity.
Defined.

(** The loop over the types runs to its end without throwing exactly when
    the request for each type is answered, with a non-success status or
    with the JSON of a type. *)
Lemma weakness_loop_resolves_iff (net : Net) (types : list TypeSlot.t) :
  forall w0,
    (exists w, outcome (weakness_loop net types w0) = Resolved w)
    <-> Forall (type_answered net) types.
Proof.
  induction types as [|t rest IH]; intros w0; cbn [weakness_loop].
  - split; [constructor | intros _; exists w0; reflexivity].
  - rewrite outcome_bind. unfold fetch.
    destruct (net (TypeRef.url (TypeSlot.type t))) as [|status body] eqn:Hnet;
      cbn [outcome fst].
    + split; [intros [w H]; discriminate|].
      intros H. inversion H as [|? ? (st & b & Hn & _) _]; subst.
      congruence.
    + destruct (ok status) eqn:Hok; cbn [negb].
      * rewrite outcome_bind.
        destruct body as [results|name id sprites tys|rel|];
          cbn [json outcome fst ret throw].
        1,2,4: split; [intros [w H]; discriminate|];
          intros H; inversion H as [|? ? (st & b & Hn & Hb) _]; subst;
          rewrite Hnet in Hn; injection Hn as <- <-;
          destruct Hb as [Hb|[rel Hb]]; congruence.
        rewrite outcome_bind. cbn [double_damage_from_of outcome fst ret].
        rewrite IH. split.
        -- intros H. constructor; [|exact H].
           exists status, (TypeBody rel). split; [exact Hnet|].
           right. exists rel. reflexivity.
        -- intros H. inversion H; assumption.
      * rewrite IH. split.
        -- intros H. constructor; [|exact H].
           exists status, body. split; [exact Hnet | now left].
        -- intros H. inversion H; assumption.
Qed.

(** The amended C5 needs its condition on the other types: here the
    detail is fetched and the first type is answered 503, but the request
    for the second type fails with a network error, and no record is
    produced. *)
Lemma refused_then_thrown_drops_record :
  let net : Net := fun u =>
    if String.eqb u "p/0" then
      Response 200 (DetailBody "ghostly" 0 Sample.art
                               [Sample.type_of "ghost";
                                Sample.type_of "electric"])
    else Sample.api u in
  net "t/ghost" = Response 503 NotJson
  /\ net "t/electric" = NetworkError
  /\ ~ Forall (type_answered net) [Sample.type_of "electric"]
  /\ outcome (fetchPokemonDetail net "p/0") = Resolved None.
Proof.
  intros net. split; [reflexivity|]. split; [reflexivity|].
  split; [|reflexivity].
  intros H. inversion H as [|? ? (st & b & Hn & _) _]. discriminate Hn.
Qed.

(** C5, as stated, fails: the detail of pikachu is fetched, the request
    for its only type fails with a network error, and no record is
    produced at all. *)
Lemma type_failure_thrown_drops_record :
  Sample.api "p/25"
  = Response 200 (DetailBody "pikachu" 25 Sample.art
                             [Sample.type_of "electric"])
  /\ ok 200 = true
  /\ Sample.api (TypeRef.url (TypeSlot.type (Sample.type_of "electric")))
     = NetworkError
  /\ outcome (fetchPokemonDetail Sample.api "p/25") = Resolved None.
Proof. repeat split. Qed.

(** ** Batches (C2) *)

Lemma non_null_app {A} (l1 l2 : list (option A)) :
  non_null (l1 ++ l2) = non_null l1 ++ non_null l2.
Proof.
  induction l1 as [|[a|] l1 IH]; simpl; [reflexivity | f_equal | ]; exact IH.
Qed.

Lemma records_app (net : Net) (b1 b2 : list Pokemon.t) :
  records net (b1 ++ b2) = records net b1 ++ records net b2.
Proof. unfold records. rewrite map_app. apply non_null_app. Qed.

Lemma Promise_all_details (net : Net) (batch : list Pokemon.t) :
  outcome (Promise_all
             (map (fun urlInfo => fetchPokemonDetail net (Pokemon.url urlInfo))
                  batch))
  = Resolved (map (fun e => detail_of net (Pokemon.url e)) batch).
Proof.
  induction batch as [|e batch IH]; cbn [map Promise_all].
  - reflexivity.
  - rewrite outcome_bind, fetchPokemonDetail_resolves.
    rewrite outcome_bind, IH. reflexivity.
Qed.

(** A batch always resolves, with the records of its entries in order. *)
Lemma hydrate_batch_records (net : Net) (batch : list Pokemon.t) :
  outcome (hydrate_batch net batch) = Resolved (records net batch).
Proof.
  unfold hydrate_batch. rewrite outcome_bind, Promise_all_details.
  reflexivity.
Qed.

(** C2.  An entry whose detail request is answered with a non-success
    status, or throws, yields [null] and is absent from what the batch
    produces; the batch still resolves, with the records of the entries
    before it followed by the records of the entries after it. *)
Theorem failed_entry_absent (net : Net) (before : list Pokemon.t)
    (e : Pokemon.t) (after : list Pokemon.t) :
  detail_fetch_failed net (Pokemon.url e) = true ->
  outcome (fetchPokemonDetail net (Pokemon.url e)) = Resolved None
  /\ exists rb ra,
       outcome (hydrate_batch net before) = Resolved rb
       /\ outcome (hydrate_batch net after) = Resolved ra
       /\ outcome (hydrate_batch net (before ++ e :: after))
          = Resolved (rb ++ ra).
Proof.
  intros Hfail. apply detail_fetch_failed_None in Hfail.
  split.
  - rewrite fetchPokemonDetail_resolves, Hfail. reflexivity.
  - exists (records net before), (records net after).
    rewrite !hydrate_batch_records. repeat split.
    f_equal. rewrite records_app. f_equal.
    unfold records. cbn [map]. rewrite Hfail. reflexivity.
Qed.

Lemma failed_entry_absent_witness :
  outcome (hydrate_batch Sample.api
             ([Sample.bulbasaur] ++ Sample.charmander :: [Sample.paras]))
  = Resolved [Sample.bulbasaur_detail; Sample.paras_detail].
Proof.
  destruct (failed_entry_absent Sample.api [Sample.bulbasaur]
              Sample.charmander [Sample.paras] eq_refl)
    as (_ & rb & ra & Hb & Ha & H).
  rewrite H. injection Hb as <-. injection Ha as <-. reflexivity.
Defined.

(** ** Strings *)

Lemma toLowerCase_empty (raw : string) :
  toLowerCase raw = "" <-> raw = "".
Proof. destruct raw; simpl; split; intros H; congruence. Qed.

Lemma typed_query (raw : string) :
  raw <> "" -> String.eqb (toLowerCase raw) "" = false.
Proof.
  intros H. apply String.eqb_neq. rewrite toLowerCase_empty. exact H.
Qed.

Lemma lower_ascii_idem (c : ascii) : lower_ascii (lower_ascii c) = lower_ascii c.
Proof.
  unfold lower_ascii.
  destruct ((65 <=? nat_of_ascii c) && (nat_of_ascii c <=? 90)) eqn:E.
  - apply andb_prop in E. destruct E as [E1 E2].
    apply Nat.leb_le in E1. apply Nat.leb_le in E2.
    rewrite nat_ascii_embedding by lia.
    replace (nat_of_ascii c + 32 <=? 90) with false
      by (symmetry; apply Nat.leb_gt; lia).
    rewrite andb_false_r. reflexivity.
  - rewrite E. reflexivity.
Qed.

Lemma toLowerCase_idem (s : string) :
  toLowerCase (toLowerCase s) = toLowerCase s.
Proof.
  induction s as [|c s IH]; simpl; [reflexivity|].
  now rewrite lower_ascii_idem, IH.
Qed.

Lemma prefix_toLowerCase (needle hay : string) :
  String.prefix needle hay = true ->
  String.prefix (toLowerCase needle) (toLowerCase hay) = true.
Proof.
  revert hay. induction needle as [|c needle IH]; intros [|c' hay]; simpl;
    try reflexivity; try discriminate.
  destruct (ascii_dec c c') as [->|]; [|discriminate].
  intros H. destruct (ascii_dec (lower_ascii c') (lower_ascii c'));
    [apply IH, H | congruence].
Qed.

Lemma includes_toLowerCase (hay needle : string) :
  includes hay needle = true ->
  includes (toLowerCase hay) (toLowerCase needle) = true.
Proof.
  induction hay as [|c hay IH]; simpl; rewrite !orb_true_iff.
  - intros [H|H]; [|discriminate]. left.
    apply (prefix_toLowerCase needle ""), H.
  - intros [H|H]; [left | right; apply IH, H].
    apply (prefix_toLowerCase needle (String c hay)), H.
Qed.

(** A name that contains the lowered query as it stands also contains it
    when case is ignored. *)
Lemma includes_ignoring_case (name raw : string) :
  includes name (toLowerCase raw) = true ->
  includes (toLowerCase name) (toLowerCase raw) = true.
Proof.
  intros H. apply includes_toLowerCase in H.
  now rewrite toLowerCase_idem in H.
Qed.

(** ** Lists *)

Lemma filter_none {A} (f : A -> bool) (l : list A) :
  (forall x, In x l -> f x = false) -> filter f l = [].
Proof.
  induction l as [|a l IH]; intros H; simpl; [reflexivity|].
  rewrite (H a (or_introl eq_refl)). apply IH.
  intros x Hx. apply H. now right.
Qed.


Lemma find_none {A} (f : A -> bool) (l : list A) :
  (forall x, In x l -> f x = false) -> find f l = None.
Proof.
  induction l as [|a l IH]; intros H; simpl; [reflexivity|].
  rewrite (H a (or_introl eq_refl)). apply IH.
  intros x Hx. apply H. now right.
Qed.

(** ** The branches of [handleSearchChange] *)

Section Search.

Variable net : Net.
Variable s : State.
Variable raw : string.

Lemma handleSearchChange_empty :
  raw = "" ->
  handleSearchChange net s raw
  = fetchInitialDisplayData net (setLoading true (setSearchTerm "" s)).
Proof. intros ->. reflexivity. Qed.


Lemma handleSearchChange_miss :
  raw <> "" ->
  no_match_in_display s raw ->
  handleSearchChange net s raw
  = let s' := setLoading true (setSearchTerm (toLowerCase raw) s) in
    match find (fun p => includes (Pokemon.name p) (toLowerCase raw))
               (allPokemonUrls s) with
    | Some found =>
        detail <- fetchPokemonDetail net (Pokemon.url found) ;;
        match detail with
        | Some d => ret (setLoading false (setPokemonDetails [d] s'))
        | None => ret (setLoading false (setPokemonDetails [] s'))
        end
    | None => ret (setLoading false (setPokemonDetails [] s'))
    end.
Proof.
  intros Hraw Hmiss. unfold handleSearchChange.
  rewrite (typed_query raw Hraw).
  rewrite (filter_none _ _ Hmiss). reflexivity.
Qed.

End Search.

(** ** Searching (C3, C7, C8, C10) *)






(** C7 fails on the code.  The page shows the record named "Mew"; the
    query "mew" is contained in that name when case is ignored, so the
    page should show that record and request nothing.  The test of line
    160 compares the name as it stands, misses it, and the handler falls
    through to the index: it requests mewtwo and replaces the hydrated
    set. *)
Theorem search_gate_is_case_sensitive :
  In Sample.Mew_detail (pokemonDetails Sample.showing_Mew)
  /\ includes (toLowerCase (PokemonDetail.name Sample.Mew_detail))
              (toLowerCase "mew") = true
  /\ filteredPokemon (setSearchTerm "mew" Sample.showing_Mew)
     = [Sample.Mew_detail]
  /\ requests (handleSearchChange Sample.api Sample.showing_Mew "mew")
     = ["p/150"; "t/psychic"]
  /\ pokemonDetails
       (settle (handleSearchChange Sample.api Sample.showing_Mew "mew")
               Sample.showing_Mew) = [Sample.mewtwo_detail]
  /\ filteredPokemon
       (settle (handleSearchChange Sample.api Sample.showing_Mew "mew")
               Sample.showing_Mew) = [Sample.mewtwo_detail].
Proof.
  split; [left; reflexivity|]. repeat split.
Qed.

(** C8.  The query is not empty, no hydrated record and no entry of the
    index has a name that contains it.  Then the handler requests nothing,
    empties the hydrated set, and the page shows no card and both of its
    "no results" messages. *)
Theorem search_no_match_anywhere (net : Net) (s : State) (raw : string) :
  raw <> "" ->
  no_match_in_display s raw ->
  no_match_in_index s raw ->
  exists s',
    handleSearchChange net s raw = ret s'
    /\ pokemonDetails s' = []
    /\ filteredPokemon s' = []
    /\ cards (render s') = []
    /\ not_found_text (render s') = true
    /\ no_results_text (render s') = true
    /\ loading_text (render s') = None.
Proof.
  intros Hraw Hmiss Hindex.
  rewrite (handleSearchChange_miss net s raw Hraw Hmiss).
  cbv zeta. rewrite (find_none _ _ Hindex).
  eexists. split; [reflexivity|].
  split; [reflexivity|].
  unfold render, filteredPokemon.
  cbn [searchTerm setLoading setPokemonDetails setSearchTerm pokemonDetails
       loading filter length].
  rewrite (typed_query raw Hraw). repeat split.
Qed.

Lemma search_no_match_anywhere_witness :
  exists s',
    handleSearchChange Sample.api Sample.showing_bulbasaur "Zzz" = ret s'
    /\ pokemonDetails s' = []
    /\ filteredPokemon s' = []
    /\ cards (render s') = []
    /\ not_found_text (render s') = true
    /\ no_results_text (render s') = true
    /\ loading_text (render s') = None.
Proof.
  apply (search_no_match_anywhere Sample.api Sample.showing_bulbasaur "Zzz").
  - discriminate.
  - intros p [<-|[]]. reflexivity.
  - intros e He. simpl in He.
    repeat (destruct He as [<-|He]; [reflexivity|]). destruct He.
Defined.

(** The hypotheses of C8 read with case ignored imply those above. *)
Lemma no_match_ignoring_case (s : State) (raw : string) :
  (forall p, In p (pokemonDetails s) ->
             includes (toLowerCase (PokemonDetail.name p)) (toLowerCase raw)
             = false) ->
  no_match_in_display s raw.
Proof.
  intros H p Hp. specialize (H p Hp).
  destruct (includes (PokemonDetail.name p) (toLowerCase raw)) eqn:E;
    [|reflexivity].
  apply includes_ignoring_case in E. congruence.
Qed.

(** C10.  The query is not empty, no hydrated record matches it, [found]
    is the first entry of the index whose name contains it, and the
    hydration of [found] fails.  Then the hydrated set becomes empty: the
    page shows no card, whatever it showed before. *)
Theorem search_miss_hydration_fails (net : Net) (s : State) (raw : string)
    (found : Pokemon.t) :
  raw <> "" ->
  no_match_in_display s raw ->
  first_match_in_index s raw found ->
  detail_of net (Pokemon.url found) = None ->
  exists s',
    outcome (handleSearchChange net s raw) = Resolved s'
    /\ pokemonDetails s' = []
    /\ filteredPokemon s' = []
    /\ cards (render s') = []
    /\ loading s' = false.
Proof.
  intros Hraw Hmiss Hfound Hd.
  rewrite (handleSearchChange_miss net s raw Hraw Hmiss).
  unfold first_match_in_index in Hfound. cbv zeta. rewrite Hfound.
  rewrite outcome_bind, fetchPokemonDetail_resolves, Hd.
  eexists. split; [reflexivity|].
  split; [reflexivity|].
  unfold render, filteredPokemon.
  cbn [searchTerm setLoading setPokemonDetails setSearchTerm pokemonDetails
       loading filter length].
  rewrite (typed_query raw Hraw). repeat split.
Qed.

Lemma search_miss_hydration_fails_witness :
  detail_fetch_failed Sample.api (Pokemon.url Sample.charmander) = true
  /\ exists s',
       outcome (handleSearchChange Sample.api Sample.showing_bulbasaur "char")
       = Resolved s'
       /\ pokemonDetails s' = []
       /\ filteredPokemon s' = []
       /\ cards (render s') = []
       /\ loading s' = false.
Proof.
  split; [reflexivity|].
  apply (search_miss_hydration_fails Sample.api Sample.showing_bulbasaur
           "char" Sample.charmander).
  - discriminate.
  - intros p [<-|[]]. reflexivity.
  - reflexivity.
  - apply detail_fetch_failed_None. reflexivity.
Defined.

(** ** The continuations *)

Opaque POKEMON_DISPLAY_LIMIT.

Lemma fetchAllUrls_failed (net : Net) (s : State) :
  index_fetch_failed net = true ->
  fetchAllUrls net s
  = (Resolved (Alive (setLoading false (setError (Some INDEX_LOAD_ERROR) s))),
     [INDEX_URL]).
Proof.
  unfold index_fetch_failed, fetchAllUrls, fetch, bind, try_catch.
  destruct (net INDEX_URL) as [|status body]; [reflexivity|]. simpl.
  destruct (ok status); [|reflexivity].
  destruct body; simpl; intros H; try discriminate. reflexivity.
Qed.

Lemma fetchAllUrls_loaded (net : Net) (s : State) (status : nat)
    (results : list Pokemon.t) :
  net INDEX_URL = Response status (ListBody results) ->
  ok status = true ->
  fetchAllUrls net s
  = (Resolved (Alive (setAllPokemonUrls results s)), [INDEX_URL]).
Proof.
  intros Hnet Hok. unfold fetchAllUrls, fetch. rewrite Hnet.
  unfold bind, try_catch. simpl. rewrite Hok. reflexivity.
Qed.

Lemma resume_batch (net : Net) (batch : list Pokemon.t) (s : State) :
  outcome (resume net (AwaitBatch batch) s)
  = Resolved (Alive (setLoading false
                       (setPokemonDetails (records net batch) s))).
Proof.
  cbn [resume].
  rewrite outcome_bind, outcome_finally, outcome_try_catch_ret.
  rewrite outcome_bind, hydrate_batch_records. reflexivity.
Qed.

Lemma resume_detail (net : Net) (url : string) (s : State) :
  outcome (resume net (AwaitDetail url) s)
  = Resolved (Alive (setLoading false
                       (setPokemonDetails
                          match detail_of net url with
                          | Some d => [d]
                          | None => []
                          end s))).
Proof.
  cbn [resume]. rewrite outcome_bind, fetchPokemonDetail_resolves.
  destruct (detail_of net url); reflexivity.
Qed.

Lemma fetchInitialDisplayData_start_empty (s : State) :
  allPokemonUrls s = [] ->
  fetchInitialDisplayData_start s
  = (setLoading false (setError None (setLoading true s)), []).
Proof.
  intros H. unfold fetchInitialDisplayData_start.
  cbn [allPokemonUrls setError setLoading]. rewrite H. reflexivity.
Qed.

Lemma fetchInitialDisplayData_start_nonempty (s : State) :
  allPokemonUrls s <> [] ->
  fetchInitialDisplayData_start s
  = (setError None (setLoading true s),
     [AwaitBatch (firstn POKEMON_DISPLAY_LIMIT (allPokemonUrls s))]).
Proof.
  intros H. unfold fetchInitialDisplayData_start.
  cbn [allPokemonUrls setError setLoading].
  destruct (allPokemonUrls s); [congruence | reflexivity].
Qed.

(** [fetchInitialDisplayData] is its first part followed by its
    continuation. *)
Lemma fetchInitialDisplayData_nonempty (net : Net) (s : State) :
  allPokemonUrls s <> [] ->
  outcome (fetchInitialDisplayData net s)
  = Resolved
      (setLoading false
         (setPokemonDetails
            (records net (firstn POKEMON_DISPLAY_LIMIT (allPokemonUrls s)))
            (setError None (setLoading true s)))).
Proof.
  intros H. unfold fetchInitialDisplayData.
  cbn [allPokemonUrls setError setLoading].
  destruct (allPokemonUrls s) as [|e l] eqn:E; [congruence|].
  cbn [length Nat.eqb].
  rewrite outcome_finally, outcome_try_catch_ret.
  rewrite outcome_bind, hydrate_batch_records. reflexivity.
Qed.

(** ** The effects *)

Lemma error_eqb_eq (a b : option string) : error_eqb a b = true <-> a = b.
Proof.
  destruct a as [x|], b as [y|]; simpl; try (split; congruence).
  rewrite String.eqb_eq. split; congruence.
Qed.

Lemma deps1_same_refl (s : State) : deps1_same s s = true.
Proof.
  unfold deps1_same. rewrite Nat.eqb_refl. apply error_eqb_eq. reflexivity.
Qed.

Lemma deps2_same_refl (s : State) : deps2_same s s = true.
Proof.
  unfold deps2_same. rewrite !Nat.eqb_refl, Bool.eqb_reflx. reflexivity.
Qed.

Lemma deps1_same_intro (prev cur : State) :
  allPokemonUrls cur = allPokemonUrls prev ->
  error cur = error prev ->
  deps1_same prev cur = true.
Proof.
  intros Hi He. unfold deps1_same. rewrite Hi, He, Nat.eqb_refl.
  apply error_eqb_eq. reflexivity.
Qed.

(** A render that changes no dependency runs no effect. *)
Lemma effects_same (s : State) : effects s s = (s, []).
Proof.
  unfold effects. now rewrite deps1_same_refl, deps2_same_refl.
Qed.

Lemma effect2_not_loading (s : State) :
  loading s = false -> effect2 s = (s, []).
Proof.
  intros H. unfold effect2. rewrite H, !andb_false_r. reflexivity.
Qed.

Lemma effect2_no_index (s : State) :
  allPokemonUrls s = [] -> effect2 s = (s, []).
Proof. intros H. unfold effect2. rewrite H. reflexivity. Qed.

Lemma effect1_index (s : State) :
  allPokemonUrls s <> [] -> effect1 s = [].
Proof.
  intros H. unfold effect1. destruct (allPokemonUrls s); [congruence|].
  reflexivity.
Qed.

Lemma effect1_spawns (s : State) :
  In AwaitIndex (effect1 s) -> allPokemonUrls s = [] /\ error s = None.
Proof.
  unfold effect1. destruct (allPokemonUrls s); [|intros []].
  destruct (error s); [intros [] | auto].
Qed.

Lemma flags_only_refl (s : State) : flags_only s s.
Proof. unfold flags_only. intuition. Qed.

Lemma flags_only_trans (a b c : State) :
  flags_only a b -> flags_only b c -> flags_only a c.
Proof.
  unfold flags_only.
  intros (Hi & Hr & Hd & Ht & He) (Hi' & Hr' & Hd' & Ht' & He').
  repeat split; try congruence.
  destruct He' as [He'|[He' Hn]]; [destruct He as [He|He] | ].
  - left. congruence.
  - right. destruct He. split; congruence.
  - right. split; congruence.
Qed.

Lemma flags_only_setLoading (b : bool) (s : State) :
  flags_only s (setLoading b s).
Proof. unfold flags_only. cbn. intuition. Qed.

Lemma effect2_flags (s : State) :
  flags_only s (fst (effect2 s))
  /\ ~ In AwaitIndex (snd (effect2 s)).
Proof.
  unfold effect2.
  destruct ((0 <? length (allPokemonUrls s))
            && (length (pokemonDetails s) =? 0) && loading s) eqn:E.
  - assert (Hne : allPokemonUrls s <> []).
    { destruct (allPokemonUrls s); [discriminate | congruence]. }
    rewrite (fetchInitialDisplayData_start_nonempty s Hne). cbn [fst snd].
    split.
    + unfold flags_only. cbn. intuition.
    + intros [H|[]]. discriminate.
  - destruct ((0 <? length (allPokemonUrls s))
              && (0 <? length (pokemonDetails s)) && loading s);
      cbn [fst snd]; split; try (intros []).
    + apply flags_only_setLoading.
    + apply flags_only_refl.
Qed.

Lemma effects_spec (prev cur : State) :
  flags_only cur (fst (effects prev cur))
  /\ (In AwaitIndex (snd (effects prev cur)) ->
      deps1_same prev cur = false /\ allPokemonUrls cur = []
      /\ error cur = None)
  /\ (allPokemonUrls cur = [] -> fst (effects prev cur) = cur)
  /\ (allPokemonUrls cur = [] -> deps1_same prev cur = true ->
      snd (effects prev cur) = []).
Proof.
  unfold effects.
  destruct (effect2_flags cur) as [Hflags Hno].
  assert (Hfirst : forall started,
    In AwaitIndex
       ((if deps1_same prev cur then [] else effect1 cur) ++ started) ->
    ~ In AwaitIndex started ->
    deps1_same prev cur = false /\ allPokemonUrls cur = []
    /\ error cur = None).
  { intros started H Hnone.
    apply in_app_or in H. destruct H as [H|H]; [|contradiction].
    destruct (deps1_same prev cur); [destruct H|].
    split; [reflexivity | apply effect1_spawns, H]. }
  destruct (deps2_same prev cur).
  - cbn [fst snd].
    refine (conj (flags_only_refl cur) (conj _ (conj (fun _ => eq_refl) _))).
    + intros H. apply (Hfirst [] H). intros [].
    + intros _ ->. reflexivity.
  - destruct (effect2 cur) as [s2 started2] eqn:E2. cbn [fst snd] in *.
    refine (conj Hflags (conj _ (conj _ _))).
    + intros H. apply (Hfirst started2 H Hno).
    + intros H. rewrite (effect2_no_index cur H) in E2. congruence.
    + intros H ->. rewrite (effect2_no_index cur H) in E2.
      injection E2 as <- <-. reflexivity.
Qed.

Lemma effects_idle (prev cur : State) :
  loading cur = false ->
  deps1_same prev cur = true ->
  effects prev cur = (cur, []).
Proof.
  intros Hl Hd. unfold effects. rewrite Hd.
  destruct (deps2_same prev cur); [reflexivity|].
  now rewrite (effect2_not_loading cur Hl).
Qed.

(** Once the loading flag is down, a commit that changes neither the
    length of the index nor the error runs no effect. *)
Lemma commit_idle (prev cur : State) :
  loading cur = false ->
  deps1_same prev cur = true ->
  commit prev cur = (cur, []).
Proof.
  intros Hl Hd. unfold commit.
  rewrite (effects_idle prev cur Hl Hd), effects_same. reflexivity.
Qed.

Lemma commit_spec (prev cur : State) :
  flags_only cur (fst (commit prev cur))
  /\ (In AwaitIndex (snd (commit prev cur)) ->
      deps1_same prev cur = false /\ allPokemonUrls cur = []
      /\ error cur = None)
  /\ (allPokemonUrls cur = [] -> fst (commit prev cur) = cur)
  /\ (allPokemonUrls cur = [] -> deps1_same prev cur = true ->
      snd (commit prev cur) = []).
Proof.
  unfold commit.
  destruct (effects_spec prev cur) as (Hf1 & Hi1 & He1 & Hn1).
  destruct (effects prev cur) as [s1 started1] eqn:E1. cbn [fst snd] in *.
  destruct (effects_spec cur s1) as (Hf2 & Hi2 & He2 & Hn2).
  destruct (effects cur s1) as [s2 started2] eqn:E2. cbn [fst snd] in *.
  assert (Hidx : allPokemonUrls s1 = allPokemonUrls cur) by apply Hf1.
  assert (Hsecond : ~ In AwaitIndex started2).
  { intros H. destruct (Hi2 H) as (Hd & Hempty & _).
    rewrite Hidx in Hempty. rewrite (He1 Hempty), deps1_same_refl in Hd.
    discriminate. }
  refine (conj (flags_only_trans _ _ _ Hf1 Hf2) (conj _ (conj _ _))).
  - intros H. apply in_app_or in H.
    destruct H as [H|H]; [apply Hi1, H | contradiction].
  - intros H. transitivity s1; [apply He2; now rewrite Hidx | apply He1, H].
  - intros H Hd. rewrite (Hn1 H Hd). cbn [app].
    apply Hn2; [now rewrite Hidx|].
    rewrite (He1 H). apply deps1_same_refl.
Qed.

(** ** Steps *)

Lemma remove_nth_In {A} (i : nat) (l : list A) (x : A) :
  In x (remove_nth i l) -> In x l.
Proof.
  revert i. induction l as [|a l IH]; intros [|i]; simpl; auto.
  intros [H|H]; [auto | right; eapply IH, H].
Qed.

Lemma handleSearchChange_start_spec (s : State) (raw : string) :
  allPokemonUrls (fst (handleSearchChange_start s raw)) = allPokemonUrls s
  /\ (error (fst (handleSearchChange_start s raw)) = error s
      \/ error (fst (handleSearchChange_start s raw)) = None)
  /\ ~ In AwaitIndex (snd (handleSearchChange_start s raw))
  /\ (allPokemonUrls s = [] -> snd (handleSearchChange_start s raw) = [])
  /\ (pokemonDetails (fst (handleSearchChange_start s raw)) = pokemonDetails s
      \/ pokemonDetails (fst (handleSearchChange_start s raw)) = []).
Proof.
  unfold handleSearchChange_start.
  destruct (String.eqb (toLowerCase raw) "").
  - destruct (allPokemonUrls s) as [|e l] eqn:E.
    + rewrite fetchInitialDisplayData_start_empty by exact E.
      cbn. rewrite E. intuition.
    + rewrite fetchInitialDisplayData_start_nonempty
        by (cbn; rewrite E; discriminate).
      cbn. rewrite E. intuition; discriminate.
  - destruct (0 <? length _).
    + cbn. intuition.
    + destruct (find _ (allPokemonUrls s)) as [found|] eqn:F; cbn.
      * intuition; try discriminate.
        rewrite H in F. discriminate.
      * intuition.
Qed.

(** Once the index is stored, no step replaces it, sets the error or
    requests the listing again. *)
Lemma step_index_settled (R : list Pokemon.t) (c : Config) (l : Label) :
  index_settled R c -> index_settled R (step c l).
Proof.
  intros (Hc & Hi & He & Hp & Hempty). unfold step. rewrite Hc.
  destruct l as [raw | i net].
  - destruct (handleSearchChange_start_spec (state c) raw)
      as (Si & Se & Sp & Sn & Sd).
    destruct (handleSearchChange_start (state c) raw) as [s1 started].
    cbn [fst snd] in *.
    assert (He1 : error s1 = None) by (destruct Se; congruence).
    assert (Hsame : deps1_same (state c) s1 = true)
      by (apply deps1_same_intro; congruence).
    destruct (commit_spec (state c) s1) as (Cf & Ci & Ce & Cn).
    destruct (commit (state c) s1) as [s2 started']. cbn [fst snd] in *.
    destruct Cf as (Fi & _ & Fd & _ & Fe).
    unfold index_settled. cbn [crashed state pending].
    refine (conj eq_refl (conj _ (conj _ (conj _ _)))).
    + congruence.
    + destruct Fe as [Fe|[Fe _]]; congruence.
    + intros H. apply in_app_or in H. destruct H as [H|H]; [auto|].
      apply in_app_or in H. destruct H as [H|H]; [auto|].
      destruct (Ci H) as [Hd _]. congruence.
    + intros HR. destruct (Hempty HR) as [Hpend Hdet].
      assert (Hidx : allPokemonUrls (state c) = []) by congruence.
      rewrite Hpend, (Sn Hidx), Cn by congruence.
      split; [reflexivity|]. rewrite Fd. destruct Sd; congruence.
  - destruct (nth_error (pending c) i) as [task|] eqn:Hnth.
    2: { unfold index_settled. auto. }
    assert (Hin : In task (pending c)) by (eapply nth_error_In, Hnth).
    assert (HR : R <> []).
    { intros HR. destruct (Hempty HR) as [Hpend _].
      rewrite Hpend in Hin. destruct Hin. }
    assert (Hidle : forall details,
      commit (state c) (setLoading false (setPokemonDetails details (state c)))
      = (setLoading false (setPokemonDetails details (state c)), [])).
    { intros details. apply commit_idle; [reflexivity|].
      apply deps1_same_intro; reflexivity. }
    destruct task as [|batch|url].
    + contradiction.
    + rewrite resume_batch, Hidle. unfold index_settled.
      cbn [crashed state pending allPokemonUrls error setLoading
           setPokemonDetails].
      rewrite app_nil_r.
      refine (conj eq_refl (conj Hi (conj He (conj _ _)))).
      * intros H. apply remove_nth_In in H. contradiction.
      * intros H. contradiction.
    + rewrite resume_detail, Hidle. unfold index_settled.
      cbn [crashed state pending allPokemonUrls error setLoading
           setPokemonDetails].
      rewrite app_nil_r.
      refine (conj eq_refl (conj Hi (conj He (conj _ _)))).
      * intros H. apply remove_nth_In in H. contradiction.
      * intros H. contradiction.
Qed.

Lemma run_index_settled (R : list Pokemon.t) (ls : list Label) :
  forall c, index_settled R c -> index_settled R (run c ls).
Proof.
  induction ls as [|l ls IH]; intros c H; [exact H|].
  apply IH, step_index_settled, H.
Qed.

(** The answer of a batch stores its records and lowers the loading
    flag; nothing else changes and nothing new is requested. *)
Lemma step_answer_batch (c : Config) (i : nat) (net : Net)
    (batch : list Pokemon.t) :
  crashed c = false ->
  nth_error (pending c) i = Some (AwaitBatch batch) ->
  step c (Answer i net)
  = {| state := setLoading false
                  (setPokemonDetails (records net batch) (state c));
       pending := remove_nth i (pending c);
       log := log c ++ requests (resume net (AwaitBatch batch) (state c));
       crashed := false |}.
Proof.
  intros Hc Hnth. unfold step. rewrite Hc, Hnth, resume_batch.
  rewrite commit_idle;
    [ now rewrite app_nil_r | reflexivity
    | apply deps1_same_intro; reflexivity ].
Qed.

(** ** The first load (C9) *)

Lemma mount_waits_for_index :
  mount = {| state := initial_state; pending := [AwaitIndex]; log := [];
             crashed := false |}.
Proof. reflexivity. Qed.

Lemma records_In (net : Net) (batch : list Pokemon.t) (d : PokemonDetail.t) :
  In d (records net batch) ->
  exists e, In e batch /\ detail_of net (Pokemon.url e) = Some d.
Proof.
  unfold records. induction batch as [|e batch IH]; cbn [map non_null].
  - intros [].
  - destruct (detail_of net (Pokemon.url e)) as [d'|] eqn:E.
    + intros [<-|H].
      * exists e. split; [now left | exact E].
      * destruct (IH H) as (e' & He' & Hd). exists e'. split; [now right|auto].
    + intros H. destruct (IH H) as (e' & He' & Hd).
      exists e'. split; [now right|auto].
Qed.

Lemma records_length (net : Net) (batch : list Pokemon.t) :
  length (records net batch) <= length batch.
Proof.
  unfold records. induction batch as [|e batch IH]; cbn [map non_null length].
  - lia.
  - destruct (detail_of net (Pokemon.url e)); cbn [length]; lia.
Qed.

Lemma requests_Promise_all (net : Net) (batch : list Pokemon.t) :
  requests (Promise_all
              (map (fun urlInfo => fetchPokemonDetail net (Pokemon.url urlInfo))
                   batch))
  = flat_map (fun e => requests (fetchPokemonDetail net (Pokemon.url e)))
             batch.
Proof.
  induction batch as [|e batch IH]; cbn [map Promise_all flat_map].
  - reflexivity.
  - rewrite requests_bind, fetchPokemonDetail_resolves.
    rewrite requests_bind, Promise_all_details, IH.
    cbn. now rewrite app_nil_r.
Qed.

(** A batch requests what the hydrations of its entries request. *)
Lemma requests_hydrate_batch (net : Net) (batch : list Pokemon.t) :
  requests (hydrate_batch net batch)
  = flat_map (fun e => requests (fetchPokemonDetail net (Pokemon.url e)))
             batch.
Proof.
  unfold hydrate_batch.
  rewrite requests_bind, Promise_all_details, requests_Promise_all.
  cbn. apply app_nil_r.
Qed.

Lemma requests_resume_batch (net : Net) (batch : list Pokemon.t) (s : State) :
  requests (resume net (AwaitBatch batch) s)
  = requests (hydrate_batch net batch).
Proof.
  cbn [resume].
  rewrite requests_bind, outcome_finally, outcome_try_catch_ret.
  rewrite requests_finally, requests_try_catch_ret.
  rewrite outcome_bind, hydrate_batch_records.
  rewrite requests_bind, hydrate_batch_records. cbn.
  now rewrite !app_nil_r.
Qed.

(** The state and the pending request once the listing has answered. *)
Lemma step_index_loaded (net0 : Net) (status : nat) (R : list Pokemon.t) :
  net0 INDEX_URL = Response status (ListBody R) ->
  ok status = true ->
  step mount (Answer 0 net0)
  = {| state := setAllPokemonUrls R initial_state;
       pending := match R with
                  | [] => []
                  | _ => [AwaitBatch (firstn POKEMON_DISPLAY_LIMIT R)]
                  end;
       log := [INDEX_URL];
       crashed := false |}.
Proof.
  intros Hnet Hok. rewrite mount_waits_for_index. unfold step.
  cbn [crashed pending nth_error state log remove_nth resume].
  rewrite (fetchAllUrls_loaded net0 initial_state status R Hnet Hok).
  cbn [outcome requests fst snd app].
  destruct R as [|e R]; [reflexivity|].
  assert (E : effects initial_state (setAllPokemonUrls (e :: R) initial_state)
              = (setAllPokemonUrls (e :: R) initial_state,
                 [AwaitBatch (firstn POKEMON_DISPLAY_LIMIT (e :: R))])).
  { unfold effects, effect1, effect2, fetchInitialDisplayData_start.
    cbn -[firstn]. reflexivity. }
  unfold commit. rewrite E, effects_same. reflexivity.
Qed.

(** The configuration once the listing and then the first batch have
    answered. *)
Lemma first_load (net0 net : Net) (status : nat) (R : list Pokemon.t) :
  net0 INDEX_URL = Response status (ListBody R) ->
  ok status = true ->
  run mount [Answer 0 net0; Answer 0 net]
  = {| state :=
         {| allPokemonUrls := R; index_ref := 1;
            pokemonDetails := records net (firstn POKEMON_DISPLAY_LIMIT R);
            searchTerm := "";
            loading := match R with [] => true | _ => false end;
            error := None |};
       pending := [];
       log := INDEX_URL
              :: flat_map
                   (fun e => requests (fetchPokemonDetail net (Pokemon.url e)))
                   (firstn POKEMON_DISPLAY_LIMIT R);
       crashed := false |}.
Proof.
  intros Hnet Hok. unfold run. cbn [fold_left].
  rewrite (step_index_loaded net0 status R Hnet Hok).
  destruct R as [|e R].
  - rewrite firstn_nil. reflexivity.
  - rewrite (step_answer_batch _ 0 net (firstn POKEMON_DISPLAY_LIMIT (e :: R)))
      by reflexivity.
    cbn [state pending log remove_nth].
    rewrite requests_resume_batch, requests_hydrate_batch. reflexivity.
Qed.

(** C9.  Once the listing has answered with the entries [R], the first
    hydration is that of the first [POKEMON_DISPLAY_LIMIT] entries of [R]
    (of all of them when [R] is shorter): the hydrated set holds the
    records of these entries in their order, so at most
    [POKEMON_DISPLAY_LIMIT] records, each one the record of an entry of
    that prefix, and what was requested is the listing followed by what
    the hydrations of these entries request. *)
Theorem initial_hydration_window (net0 net : Net) (status : nat)
    (R : list Pokemon.t) :
  net0 INDEX_URL = Response status (ListBody R) ->
  ok status = true ->
  let window := firstn POKEMON_DISPLAY_LIMIT R in
  let shown := run mount [Answer 0 net0; Answer 0 net] in
  (exists rest, R = window ++ rest)
  /\ length window = Nat.min POKEMON_DISPLAY_LIMIT (length R)
  /\ pokemonDetails (state shown) = records net window
  /\ length (pokemonDetails (state shown)) <= POKEMON_DISPLAY_LIMIT
  /\ (forall d, In d (pokemonDetails (state shown)) ->
                exists e, In e window
                          /\ detail_of net (Pokemon.url e) = Some d)
  /\ log shown
     = INDEX_URL
       :: flat_map (fun e => requests (fetchPokemonDetail net (Pokemon.url e)))
                   window
  /\ pending shown = [].
Proof.
  intros Hnet Hok window shown. unfold shown.
  rewrite (first_load net0 net status R Hnet Hok).
  cbn [state pokemonDetails log pending]. fold window.
  split; [exists (skipn POKEMON_DISPLAY_LIMIT R);
          symmetry; apply firstn_skipn|].
  split; [apply length_firstn|].
  split; [reflexivity|].
  split.
  { etransitivity; [apply records_length | apply firstn_le_length]. }
  split; [intros d Hd; apply (records_In net window d Hd)|].
  split; reflexivity.
Qed.

Lemma initial_hydration_window_witness :
  pokemonDetails
    (state (run mount [Answer 0 Sample.api; Answer 0 Sample.api]))
  = [Sample.bulbasaur_detail; Sample.paras_detail; Sample.gengar_detail;
     Sample.mew_detail]
  /\ length (pokemonDetails
               (state (run mount [Answer 0 Sample.api; Answer 0 Sample.api])))
     <= POKEMON_DISPLAY_LIMIT.
Proof.
  destruct (initial_hydration_window Sample.api Sample.api 200 Sample.index
              eq_refl eq_refl) as (_ & _ & Hd & Hlen & _).
  split; [rewrite Hd; vm_compute; reflexivity | exact Hlen].
Defined.

(** ** Clearing the search box (C4) *)

Lemma first_load_settled (net0 net : Net) (status : nat)
    (R : list Pokemon.t) :
  net0 INDEX_URL = Response status (ListBody R) ->
  ok status = true ->
  index_settled R (run mount [Answer 0 net0; Answer 0 net]).
Proof.
  intros Hnet Hok. rewrite (first_load net0 net status R Hnet Hok).
  unfold index_settled. cbn [crashed state pending allPokemonUrls error
                             pokemonDetails].
  refine (conj eq_refl (conj eq_refl (conj eq_refl (conj _ _)))).
  - intros [].
  - intros ->. rewrite firstn_nil. split; reflexivity.
Qed.






(** ** Failure of the index load (C6) *)

(** When the listing request fails, the error is stored, the loading flag
    is lowered, nothing is pending and the page shows the error and no
    card. *)
Lemma index_failure_is_shown (net : Net) :
  index_fetch_failed net = true ->
  index_load_failed (step mount (Answer 0 net))
  /\ log (step mount (Answer 0 net)) = [INDEX_URL]
  /\ error_banner (render (state (step mount (Answer 0 net))))
     = Some INDEX_LOAD_ERROR
  /\ loading_text (render (state (step mount (Answer 0 net)))) = None
  /\ cards (render (state (step mount (Answer 0 net)))) = [].
Proof.
  intros H. rewrite mount_waits_for_index. unfold step.
  cbn [crashed pending nth_error state log remove_nth resume].
  rewrite (fetchAllUrls_failed net initial_state H).
  unfold index_load_failed. repeat split.
Qed.

(** While the user types queries that are not empty the failure stays:
    nothing is requested. *)
Lemma failure_survives_typing (c : Config) (raw : string) :
  index_load_failed c ->
  raw <> "" ->
  index_load_failed (step c (Input raw)).
Proof.
  intros (Hc & Hp & Hi & Hd & Hl & He) Hraw. unfold step. rewrite Hc.
  unfold handleSearchChange_start.
  rewrite (typed_query raw Hraw), Hd, Hi. cbn [filter length Nat.ltb Nat.leb find].
  rewrite commit_idle;
    [| reflexivity | apply deps1_same_intro; reflexivity].
  unfold index_load_failed.
  cbn [crashed pending state allPokemonUrls pokemonDetails loading error
       setLoading setPokemonDetails setSearchTerm].
  rewrite Hp. repeat split; assumption.
Qed.

Lemma failure_survives_answers (c : Config) (i : nat) (net : Net) :
  index_load_failed c -> step c (Answer i net) = c.
Proof.
  intros (Hc & Hp & _). unfold step. rewrite Hc, Hp.
  destruct i; reflexivity.
Qed.

(** X24.  When the user clears the search box the error is cleared, and
    the first effect requests the listing again. *)
Lemma clearing_requests_index_again (c : Config) :
  index_load_failed c ->
  pending (step c (Input "")) = [AwaitIndex]
  /\ error (state (step c (Input ""))) = None.
Proof.
  intros (Hc & Hp & Hi & Hd & Hl & He). unfold step. rewrite Hc.
  change (handleSearchChange_start (state c) "")
    with (fetchInitialDisplayData_start
            (setLoading true (setSearchTerm "" (state c)))).
  rewrite fetchInitialDisplayData_start_empty by exact Hi.
  set (s1 := setLoading false
               (setError None (setLoading true
                  (setLoading true (setSearchTerm "" (state c)))))).
  assert (E : effects (state c) s1 = (s1, [AwaitIndex])).
  { unfold effects.
    assert (D1 : deps1_same (state c) s1 = false).
    { unfold deps1_same. cbn [s1 error setLoading setError]. rewrite He.
      apply andb_false_r. }
    rewrite D1.
    assert (E1 : effect1 s1 = [AwaitIndex]).
    { unfold effect1. cbn [s1 allPokemonUrls error setLoading setError
                           setSearchTerm]. now rewrite Hi. }
    rewrite E1, (effect2_not_loading s1 eq_refl).
    destruct (deps2_same (state c) s1); reflexivity. }
  unfold commit. rewrite E, effects_same, Hp. split; reflexivity.
Qed.

(** C6 fails on the code.  The listing answers 500: the error is stored
    and nothing is pending.  The user types "a" and then clears the box:
    [fetchInitialDisplayData] clears the error before it checks the
    index, the first effect sees a changed dependency and no error, and
    the listing is requested a second time; when it answers, the index is
    stored. *)
Theorem index_fetch_retried_after_failure :
  let failed := run mount [Answer 0 Sample.down] in
  let cleared := run failed [Input "a"; Input ""] in
  let reloaded := run cleared [Answer 0 Sample.api] in
  index_fetch_failed Sample.down = true
  /\ error (state failed) = Some INDEX_LOAD_ERROR
  /\ pending failed = []
  /\ pending cleared = [AwaitIndex]
  /\ error (state cleared) = None
  /\ log reloaded = [INDEX_URL; INDEX_URL]
  /\ allPokemonUrls (state reloaded) = Sample.index.
Proof. vm_compute. repeat split. Qed.

(** ** The handler and the run-time agree *)

Lemma fetchInitialDisplayData_empty (net : Net) (s : State) :
  allPokemonUrls s = [] ->
  fetchInitialDisplayData net s
  = ret (setLoading false (setError None (setLoading true s))).
Proof.
  intros H. unfold fetchInitialDisplayData.
  cbn [allPokemonUrls setError setLoading]. rewrite H. reflexivity.
Qed.

Lemma flags_only_overwrite (s1 s2 : State) (b : bool)
    (details : list PokemonDetail.t) :
  flags_only s1 s2 ->
  error s1 = None ->
  setLoading b (setPokemonDetails details s2)
  = setLoading b (setPokemonDetails details s1).
Proof.
  intros (Hi & Hr & _ & Ht & He) Hnone.
  assert (He' : error s2 = error s1) by (destruct He as [|[]]; congruence).
  unfold setLoading, setPokemonDetails.
  cbn [allPokemonUrls index_ref pokemonDetails searchTerm loading error].
  now rewrite Hi, Hr, Ht, He'.
Qed.

Lemma commit_same_deps (prev cur : State) :
  deps1_same prev cur = true ->
  deps2_same prev cur = true ->
  commit prev cur = (cur, []).
Proof.
  intros H1 H2. unfold commit, effects at 1.
  now rewrite H1, H2, effects_same.
Qed.

Lemma step_answer_detail (c : Config) (i : nat) (net : Net) (url : string) :
  crashed c = false ->
  nth_error (pending c) i = Some (AwaitDetail url) ->
  state (step c (Answer i net))
  = setLoading false
      (setPokemonDetails
         match detail_of net url with Some d => [d] | None => [] end
         (state c)).
Proof.
  intros Hc Hnth. unfold step. rewrite Hc, Hnth, resume_detail.
  rewrite commit_idle;
    [ reflexivity | reflexivity | apply deps1_same_intro; reflexivity ].
Qed.

Lemma step_answer_none (c : Config) (net : Net) :
  step c (Answer (length (pending c)) net) = c.
Proof.
  unfold step. destruct (crashed c); [reflexivity|].
  now rewrite (proj2 (nth_error_None (pending c) (length (pending c)))
                     (Nat.le_refl _)).
Qed.

(** X14.  While the index is stored: what the page holds once the user has
    edited the search box and the request that [handleSearchChange]
    awaits, if any, has been answered is the state that
    [handleSearchChange] computes. *)
Lemma runtime_matches_handler (R : list Pokemon.t) (c : Config)
    (raw : string) (net : Net) :
  index_settled R c ->
  state (run c [Input raw; Answer (length (pending c)) net])
  = settle (handleSearchChange net (state c) raw) (state c).
Proof.
  intros (Hc & Hi & He & Hp & Hempty).
  change (run c [Input raw; Answer (length (pending c)) net])
    with (step (step c (Input raw)) (Answer (length (pending c)) net)).
  unfold settle, handleSearchChange.
  unfold step at 2. rewrite Hc. unfold handleSearchChange_start.
  destruct (String.eqb (toLowerCase raw) "") eqn:Hq.
  - (* the empty query *)
    destruct (allPokemonUrls (state c)) as [|e l] eqn:Hidx.
    + rewrite fetchInitialDisplayData_start_empty by exact Hidx.
      rewrite fetchInitialDisplayData_empty by exact Hidx.
      match goal with
      | |- context [commit ?prev ?cur] =>
          destruct (commit_spec prev cur) as (_ & _ & Ce & Cn);
          destruct (commit prev cur) as [s2 started']
      end.
      cbn [fst snd] in *.
      rewrite (Ce Hidx), (Cn Hidx), !app_nil_r
        by (apply deps1_same_intro; [reflexivity | exact (eq_sym He)]).
      match goal with
      | |- state (step ?c1 _) = _ =>
          change (length (pending c)) with (length (pending c1));
          rewrite (step_answer_none c1 net)
      end.
      reflexivity.
    + assert (Hne : allPokemonUrls
                      (setLoading true
                         (setSearchTerm (toLowerCase raw) (state c))) <> [])
        by (cbn; rewrite Hidx; discriminate).
      rewrite fetchInitialDisplayData_start_nonempty by exact Hne.
      rewrite fetchInitialDisplayData_nonempty by exact Hne.
      match goal with
      | |- context [commit ?prev ?cur] =>
          destruct (commit_spec prev cur) as (Cf & _);
          destruct (commit prev cur) as [s2 started']
      end.
      cbn [fst] in Cf.
      erewrite step_answer_batch; [| reflexivity |].
      * cbn [state]. apply (flags_only_overwrite _ _ _ _ Cf). reflexivity.
      * cbn [pending].
        rewrite nth_error_app2, Nat.sub_diag by apply Nat.le_refl.
        reflexivity.
  - destruct (0 <? length _) eqn:Hhit.
    + (* a hydrated record matches *)
      rewrite commit_same_deps, !app_nil_r.
      * match goal with
        | |- state (step ?c1 _) = _ =>
            change (length (pending c)) with (length (pending c1));
            rewrite (step_answer_none c1 net)
        end.
        reflexivity.
      * apply deps1_same_intro; reflexivity.
      * unfold deps2_same. cbn [allPokemonUrls pokemonDetails loading
                                index_ref setSearchTerm].
        now rewrite !Nat.eqb_refl, Bool.eqb_reflx.
    + destruct (find _ (allPokemonUrls (state c))) as [found|] eqn:Hfind.
      * (* the index matches: the detail is requested *)
        match goal with
        | |- context [commit ?prev ?cur] =>
            destruct (commit_spec prev cur) as (Cf & _);
            destruct (commit prev cur) as [s2 started']
        end.
        cbn [fst] in Cf.
        rewrite (step_answer_detail _ (length (pending c)) net
                                    (Pokemon.url found)); [| reflexivity |].
        -- cbn [state].
           rewrite (flags_only_overwrite _ _ _ _ Cf) by exact He.
           rewrite outcome_bind, fetchPokemonDetail_resolves.
           destruct (detail_of net (Pokemon.url found)); reflexivity.
        -- cbn [pending].
           rewrite nth_error_app2, Nat.sub_diag by apply Nat.le_refl.
           reflexivity.
      * (* nothing matches *)
        rewrite commit_idle, !app_nil_r;
          [| reflexivity | apply deps1_same_intro; reflexivity].
        match goal with
        | |- state (step ?c1 _) = _ =>
            change (length (pending c)) with (length (pending c1));
            rewrite (step_answer_none c1 net)
        end.
        reflexivity.
Qed.

(** ** Further facts about runs *)

(** As long as no empty query is submitted, a failed index load stays as
    it is: nothing is requested, whatever is typed. *)
Lemma failure_persists (labels : list Label) :
  Forall (fun l => match l with Input raw => raw <> "" | Answer _ _ => True end)
         labels ->
  forall c, index_load_failed c ->
            index_load_failed (run c labels) /\ log (run c labels) = log c.
Proof.
  induction 1 as [|l labels Hl _ IH]; intros c Hc; [split; auto|].
  change (run c (l :: labels)) with (run (step c l) labels).
  destruct l as [raw | i net].
  - destruct (IH _ (failure_survives_typing c raw Hc Hl)) as [Hf Hlog].
    split; [exact Hf|]. rewrite Hlog.
    destruct Hc as (Hcr & _). unfold step. rewrite Hcr.
    destruct (handleSearchChange_start (state c) raw) as [s1 started].
    destruct (commit (state c) s1) as [s2 started']. reflexivity.
  - rewrite (failure_survives_answers c i net Hc). apply IH, Hc.
Qed.

(** When the hydrated set is empty, the second effect starts the
    hydration of the window as soon as the handler raises the loading
    flag, so two requests are in flight.  After the handler's own answer
    the page shows the single record; if the batch answers later, it
    overwrites the hydrated set and the page shows the matches of the
    window. *)
Lemma window_hydration_may_follow_search :
  let first := run mount [Answer 0 Sample.api; Answer 0 Sample.api] in
  let emptied := run first [Input "zzz"] in
  let typing := run emptied [Input "a"] in
  pokemonDetails (state emptied) = []
  /\ pending typing
     = [AwaitDetail "p/1";
        AwaitBatch (firstn POKEMON_DISPLAY_LIMIT Sample.index)]
  /\ filteredPokemon (state (run typing [Answer 0 Sample.api]))
     = [Sample.bulbasaur_detail]
  /\ filteredPokemon (state (run typing [Answer 0 Sample.api;
                                         Answer 0 Sample.api]))
     = [Sample.bulbasaur_detail; Sample.paras_detail; Sample.gengar_detail].
Proof. vm_compute. repeat split. Qed.

Lemma detail_of_NoDup (net : Net) (url : string) (d : PokemonDetail.t) :
  detail_of net url = Some d -> NoDup (PokemonDetail.weaknesses d).
Proof.
  intros H.
  assert (Hout : outcome (fetchPokemonDetail net url) = Resolved (Some d))
    by (rewrite fetchPokemonDetail_resolves; congruence).
  destruct (fetchPokemonDetail_Some net url d Hout)
    as (status & name & id & sprites & types & _ & _ & Hw & _).
  eapply weakness_loop_NoDup; [constructor | exact Hw].
Qed.

Lemma fetchAllUrls_details (net : Net) (s s1 : State) :
  outcome (fetchAllUrls net s) = Resolved (Alive s1) ->
  pokemonDetails s1 = pokemonDetails s.
Proof.
  unfold fetchAllUrls, fetch, bind, try_catch.
  destruct (net INDEX_URL) as [|status body]; simpl.
  - intros H. injection H as <-. reflexivity.
  - destruct (ok status); simpl.
    + destruct body; simpl; intros H; try discriminate;
        injection H as <-; reflexivity.
    + intros H. injection H as <-. reflexivity.
Qed.

(** A step puts no record in the hydrated set that was not there, unless
    it is the record of a hydration. *)
Lemma step_details (c : Config) (l : Label) (d : PokemonDetail.t) :
  In d (pokemonDetails (state (step c l))) ->
  In d (pokemonDetails (state c))
  \/ exists net url, detail_of net url = Some d.
Proof.
  unfold step. destruct (crashed c); [auto|].
  destruct l as [raw | i net].
  - destruct (handleSearchChange_start_spec (state c) raw)
      as (_ & _ & _ & _ & Sd).
    destruct (handleSearchChange_start (state c) raw) as [s1 started].
    destruct (commit_spec (state c) s1) as ((_ & _ & Fd & _) & _).
    destruct (commit (state c) s1) as [s2 started'].
    cbn [fst snd state] in *. rewrite Fd.
    destruct Sd as [-> | ->]; [auto | intros []].
  - destruct (nth_error (pending c) i) as [task|]; [|auto].
    destruct (outcome (resume net task (state c))) as [[s1|]|] eqn:Hrun;
      cbn [state]; auto.
    destruct (commit_spec (state c) s1) as ((_ & _ & Fd & _) & _).
    destruct (commit (state c) s1) as [s2 started'].
    cbn [fst state] in *. rewrite Fd.
    destruct task as [|batch|url].
    + cbn [resume] in Hrun. rewrite (fetchAllUrls_details _ _ _ Hrun). auto.
    + rewrite resume_batch in Hrun. injection Hrun as <-.
      cbn [pokemonDetails setLoading setPokemonDetails].
      intros Hd. destruct (records_In net batch d Hd) as (e & _ & He).
      right. exists net, (Pokemon.url e). exact He.
    + rewrite resume_detail in Hrun. injection Hrun as <-.
      cbn [pokemonDetails setLoading setPokemonDetails].
      destruct (detail_of net url) as [d'|] eqn:E; [|intros []].
      intros [<-|[]]. right. exists net, url. exact E.
Qed.

(** At every moment of a session, no hydrated record lists a weakness
    twice. *)
Lemma hydrated_records_NoDup (labels : list Label) :
  forall c,
    Forall (fun d => NoDup (PokemonDetail.weaknesses d))
           (pokemonDetails (state c)) ->
    Forall (fun d => NoDup (PokemonDetail.weaknesses d))
           (pokemonDetails (state (run c labels))).
Proof.
  induction labels as [|l labels IH]; intros c Hc; [exact Hc|].
  change (run c (l :: labels)) with (run (step c l) labels).
  apply IH. apply Forall_forall. intros d Hd.
  destruct (step_details c l d Hd) as [Hold | (net & url & Hnew)].
  - exact (proj1 (Forall_forall _ _) Hc d Hold).
  - apply (detail_of_NoDup net url d Hnew).
Qed.

(** X17.  From mount on, whatever is typed and answered, no hydrated
    record lists a weakness twice. *)
Lemma session_records_NoDup (labels : list Label) :
  Forall (fun d => NoDup (PokemonDetail.weaknesses d))
         (pokemonDetails (state (run mount labels))).
Proof. apply hydrated_records_NoDup. constructor. Qed.

(** * Further properties of the code *)

(** ** Hydration of one creature *)

(** X1.  [fetchPokemonDetail] never rejects, whatever the remote API
    answers, and it yields a record only when the detail request itself
    was answered with a success status and the JSON of a creature. *)
Theorem fetchPokemonDetail_never_rejects (net : Net) (url : string) :
  (exists r, outcome (fetchPokemonDetail net url) = Resolved r)
  /\ (forall d, outcome (fetchPokemonDetail net url) = Resolved (Some d) ->
                detail_fetch_failed net url = false).
Proof.
  split.
  - exists (detail_of net url). apply fetchPokemonDetail_resolves.
  - intros d H.
    destruct (detail_fetch_failed net url) eqn:E; [|reflexivity].
    apply detail_fetch_failed_None in E.
    rewrite fetchPokemonDetail_resolves, E in H. discriminate.
Qed.

(** X2.  When the detail request gets no answer or a non-success status,
    the hydration yields [null] and requests nothing else: no type is
    fetched. *)
Theorem unanswered_detail_requests_nothing_else (net : Net) (url : string) :
  detail_unanswered net url = true ->
  fetchPokemonDetail net url = (Resolved None, [url]).
Proof.
  unfold detail_unanswered, fetchPokemonDetail, fetch, bind, try_catch.
  destruct (net url) as [|status body]; [reflexivity|].
  simpl. destruct (ok status); [discriminate | reflexivity].
Qed.

Lemma unanswered_detail_requests_nothing_else_witness :
  fetchPokemonDetail Sample.api "p/4" = (Resolved None, ["p/4"]).
Proof.
  apply (unanswered_detail_requests_nothing_else Sample.api "p/4").
  reflexivity.
Defined.

Lemma weakness_loop_requests (net : Net) (types : list TypeSlot.t) :
  forall w r,
    outcome (weakness_loop net types w) = Resolved r ->
    requests (weakness_loop net types w)
    = map (fun t => TypeRef.url (TypeSlot.type t)) types.
Proof.
  induction types as [|t rest IH]; intros w r; cbn [weakness_loop map].
  - reflexivity.
  - rewrite outcome_bind, requests_bind. unfold fetch.
    destruct (net _) as [|status body]; cbn [outcome requests fst snd];
      [discriminate|].
    destruct (ok status); cbn [negb app].
    + rewrite outcome_bind, requests_bind.
      destruct body; cbn [json outcome requests fst snd ret throw];
        try discriminate.
      rewrite outcome_bind, requests_bind.
      cbn [double_damage_from_of outcome requests fst snd ret app].
      intros H. now rewrite (IH _ _ H).
    + intros H. now rewrite (IH _ _ H).
Qed.

(** X3.  When the hydration yields a record, what it requested is the
    detail and then the types of the record, each once, in the order in
    which the record lists them. *)
Theorem hydration_requests_detail_then_types (net : Net) (url : string)
    (d : PokemonDetail.t) :
  outcome (fetchPokemonDetail net url) = Resolved (Some d) ->
  requests (fetchPokemonDetail net url)
  = url :: map (fun t => TypeRef.url (TypeSlot.type t))
               (PokemonDetail.types d).
Proof.
  intros H.
  destruct (fetchPokemonDetail_Some net url d H)
    as (status & name & id & sprites & types & Hnet & Hok & Hw & Hd).
  assert (Ht : PokemonDetail.types d = types) by (rewrite Hd; reflexivity).
  rewrite Ht. unfold fetchPokemonDetail.
  rewrite requests_try_catch_ret, requests_bind. unfold fetch.
  rewrite Hnet. cbn [outcome requests fst snd]. rewrite Hok. cbn [negb app].
  rewrite requests_bind. cbn [json outcome requests fst snd ret app].
  rewrite requests_bind, Hw.
  rewrite (weakness_loop_requests net types [] _ Hw).
  cbn. now rewrite app_nil_r.
Qed.

Lemma hydration_requests_detail_then_types_witness :
  requests (fetchPokemonDetail Sample.api "p/94")
  = "p/94" :: map (fun t => TypeRef.url (TypeSlot.type t))
                  (PokemonDetail.types Sample.gengar_detail).
Proof.
  apply (hydration_requests_detail_then_types Sample.api "p/94"
           Sample.gengar_detail).
  reflexivity.
Defined.

Lemma weakness_loop_In (net : Net) (n : string) (types : list TypeSlot.t) :
  forall w r,
    outcome (weakness_loop net types w) = Resolved r ->
    (In n r <-> In n w \/ exists t, In t types /\ listed_by net t n).
Proof.
  induction types as [|t rest IH]; intros w r; cbn [weakness_loop].
  - intros H. injection H as <-. split; [auto|].
    intros [H|(t & [] & _)]. exact H.
  - rewrite outcome_bind. unfold fetch.
    destruct (net (TypeRef.url (TypeSlot.type t))) as [|status body] eqn:Hnet;
      cbn [outcome fst]; [discriminate|].
    destruct (ok status) eqn:Hok; cbn [negb].
    + rewrite outcome_bind.
      destruct body as [| |rel|]; cbn [json outcome fst ret throw];
        try discriminate.
      rewrite outcome_bind. cbn [double_damage_from_of outcome fst ret].
      intros H. rewrite (IH _ _ H), fold_push_new_In. split.
      * intros [[Hw|Hrel]|(t' & Ht' & Hl)]; [auto | right | right].
        -- exists t. split; [now left|]. exists status, rel. auto.
        -- exists t'. split; [now right | exact Hl].
      * intros [Hw|(t' & [<-|Ht'] & Hl)]; [auto | | ].
        -- destruct Hl as (st & rel' & Hnet' & _ & Hin).
           rewrite Hnet in Hnet'. injection Hnet' as _ <-. auto.
        -- right. exists t'. auto.
    + intros H. rewrite (IH _ _ H). split.
      * intros [Hw|(t' & Ht' & Hl)]; [auto|].
        right. exists t'. split; [now right | exact Hl].
      * intros [Hw|(t' & [<-|Ht'] & Hl)]; [auto | | ].
        -- destruct Hl as (st & rel' & Hnet' & Hok' & _).
           rewrite Hnet in Hnet'. injection Hnet' as <- _. congruence.
        -- right. exists t'. auto.
Qed.

(** X4.  The weaknesses of a record are the union of the lists of its
    types: a name is a weakness exactly when one of the types of the
    record, whose request was answered with a success status, lists
    it. *)
Theorem weaknesses_are_the_union (net : Net) (url : string)
    (d : PokemonDetail.t) (n : string) :
  outcome (fetchPokemonDetail net url) = Resolved (Some d) ->
  (In n (PokemonDetail.weaknesses d)
   <-> exists t, In t (PokemonDetail.types d) /\ listed_by net t n).
Proof.
  intros H.
  destruct (fetchPokemonDetail_Some net url d H)
    as (status & name & id & sprites & types & _ & _ & Hw & Hd).
  assert (Ht : PokemonDetail.types d = types) by (rewrite Hd; reflexivity).
  rewrite Ht, (weakness_loop_In net n types [] _ Hw).
  split; [intros [[]|H']; exact H' | auto].
Qed.

Lemma weaknesses_are_the_union_witness :
  In "psychic" (PokemonDetail.weaknesses Sample.gengar_detail)
  <-> exists t, In t (PokemonDetail.types Sample.gengar_detail)
                /\ listed_by Sample.api t "psychic".
Proof.
  apply (weaknesses_are_the_union Sample.api "p/94" Sample.gengar_detail).
  reflexivity.
Defined.

(** ** The functions of [App] *)

(** X5.  [fetchInitialDisplayData] never rejects and always ends with the
    loading flag lowered and no error: its [catch] never runs, since the
    hydrations of a batch never reject.  It leaves the index and the
    query alone and, when the index is empty, requests nothing and leaves
    the hydrated set as it was. *)
Theorem fetchInitialDisplayData_settles (net : Net) (s : State) :
  exists s',
    outcome (fetchInitialDisplayData net s) = Resolved s'
    /\ loading s' = false
    /\ error s' = None
    /\ allPokemonUrls s' = allPokemonUrls s
    /\ searchTerm s' = searchTerm s
    /\ (allPokemonUrls s = [] ->
        pokemonDetails s' = pokemonDetails s
        /\ requests (fetchInitialDisplayData net s) = []).
Proof.
  destruct (allPokemonUrls s) as [|e l] eqn:E.
  - rewrite (fetchInitialDisplayData_empty net s E).
    eexists. split; [reflexivity|]. cbn. rewrite E. auto 7.
  - assert (Hne : allPokemonUrls s <> []) by (rewrite E; discriminate).
    rewrite (fetchInitialDisplayData_nonempty net s Hne).
    eexists. split; [reflexivity|]. cbn. rewrite E.
    repeat split; discriminate.
Qed.


Lemma handleSearchChange_frame (net : Net) (s : State) (raw : string) :
  exists s',
    outcome (handleSearchChange net s raw) = Resolved s'
    /\ searchTerm s' = toLowerCase raw
    /\ allPokemonUrls s' = allPokemonUrls s
    /\ index_ref s' = index_ref s.
Proof.
  unfold handleSearchChange.
  destruct (String.eqb (toLowerCase raw) "") eqn:Hq.
  - apply String.eqb_eq in Hq. rewrite Hq.
    destruct (allPokemonUrls s) as [|e l] eqn:E.
    + rewrite fetchInitialDisplayData_empty by exact E.
      eexists. split; [reflexivity|]. cbn. auto.
    + rewrite fetchInitialDisplayData_nonempty
        by (cbn; rewrite E; discriminate).
      eexists. split; [reflexivity|]. cbn. auto.
  - destruct (0 <? length _).
    + eexists. split; [reflexivity|]. cbn. auto.
    + destruct (find _ (allPokemonUrls s)) as [found|].
      * rewrite outcome_bind, fetchPokemonDetail_resolves.
        destruct (detail_of net (Pokemon.url found));
          (eexists; split; [reflexivity|]; cbn; auto).
      * eexists. split; [reflexivity|]. cbn. auto.
Qed.

(** X7.  [handleSearchChange] never rejects; it always stores the lowered
    text of the search box as the query, and it never touches the
    index. *)
Theorem handleSearchChange_stores_query (net : Net) (s : State)
    (raw : string) :
  exists s',
    outcome (handleSearchChange net s raw) = Resolved s'
    /\ searchTerm s' = toLowerCase raw
    /\ allPokemonUrls s' = allPokemonUrls s.
Proof.
  destruct (handleSearchChange_frame net s raw) as (s' & H1 & H2 & H3 & _).
  exists s'. auto.
Qed.

(** X8.  A search with a query that is not empty hydrates at most one
    creature: either nothing is requested and the hydrated set is kept
    or emptied, or what is requested is the hydration of one entry of the
    index whose name contains the lowered query, and the hydrated set is
    left with at most one record. *)
Theorem search_hydrates_at_most_one (net : Net) (s : State) (raw : string) :
  raw <> "" ->
  (requests (handleSearchChange net s raw) = []
   /\ (pokemonDetails (settle (handleSearchChange net s raw) s)
       = pokemonDetails s
       \/ pokemonDetails (settle (handleSearchChange net s raw) s) = []))
  \/ (exists e,
        In e (allPokemonUrls s)
        /\ includes (Pokemon.name e) (toLowerCase raw) = true
        /\ requests (handleSearchChange net s raw)
           = requests (fetchPokemonDetail net (Pokemon.url e))
        /\ length (pokemonDetails (settle (handleSearchChange net s raw) s))
           <= 1).
Proof.
  intros Hraw. unfold settle, handleSearchChange.
  rewrite (typed_query raw Hraw).
  destruct (0 <? length _).
  - left. split; [reflexivity | left; reflexivity].
  - destruct (find _ (allPokemonUrls s)) as [found|] eqn:F.
    + right. exists found. apply find_some in F. destruct F as [Hin Hinc].
      split; [exact Hin|]. split; [exact Hinc|].
      rewrite requests_bind, outcome_bind, fetchPokemonDetail_resolves.
      destruct (detail_of net (Pokemon.url found)); cbn;
        (split; [apply app_nil_r | lia]).
    + left. split; [reflexivity | right; reflexivity].
Qed.

Lemma search_hydrates_at_most_one_witness :
  exists e,
    In e (allPokemonUrls Sample.showing_bulbasaur)
    /\ includes (Pokemon.name e) (toLowerCase "Mew") = true
    /\ requests (handleSearchChange Sample.api Sample.showing_bulbasaur "Mew")
       = requests (fetchPokemonDetail Sample.api (Pokemon.url e))
    /\ length (pokemonDetails
                 (settle (handleSearchChange Sample.api
                            Sample.showing_bulbasaur "Mew")
                         Sample.showing_bulbasaur)) <= 1.
Proof.
  destruct (search_hydrates_at_most_one Sample.api Sample.showing_bulbasaur
              "Mew") as [[H _]|H].
  - discriminate.
  - discriminate H.
  - exact H.
Defined.

Lemma includes_empty (hay : string) : includes hay "" = true.
Proof. destruct hay; reflexivity. Qed.

(** X9.  After any edit of the search box the page shows hydrated records
    only, and only records whose lowered name contains the lowered text
    of the box. *)
Theorem shown_records_match_query (net : Net) (s : State) (raw : string)
    (d : PokemonDetail.t) :
  In d (filteredPokemon (settle (handleSearchChange net s raw) s)) ->
  In d (pokemonDetails (settle (handleSearchChange net s raw) s))
  /\ includes (toLowerCase (PokemonDetail.name d)) (toLowerCase raw) = true.
Proof.
  destruct (handleSearchChange_frame net s raw) as (s' & Hout & Ht & _).
  unfold settle. rewrite Hout. unfold filteredPokemon. rewrite Ht.
  destruct (String.eqb (toLowerCase raw) "") eqn:Hq.
  - apply String.eqb_eq in Hq. rewrite Hq.
    intros H. split; [exact H | apply includes_empty].
  - intros H. apply filter_In in H. exact H.
Qed.

Lemma shown_records_match_query_witness :
  In Sample.mew_detail
     (pokemonDetails
        (settle (handleSearchChange Sample.api Sample.showing_bulbasaur "Mew")
                Sample.showing_bulbasaur))
  /\ includes (toLowerCase (PokemonDetail.name Sample.mew_detail))
              (toLowerCase "Mew") = true.
Proof.
  apply (shown_records_match_query Sample.api Sample.showing_bulbasaur "Mew"
           Sample.mew_detail).
  left. reflexivity.
Defined.

(** ** The page *)

(** X10.  While the loading flag is up the page shows the loading text
    and nothing else below the search box: no card, no "not found" text
    and none of the three closing messages.  Once it is down the cards
    are exactly the records that [filteredPokemon] keeps. *)
Theorem page_while_loading (s : State) :
  cards (render s) = (if loading s then [] else filteredPokemon s)
  /\ (loading s = true ->
      loading_text (render s) <> None
      /\ not_found_text (render s) = false
      /\ showing_first (render s) = None
      /\ no_results_text (render s) = false
      /\ results_text (render s) = false)
  /\ (loading s = false -> loading_text (render s) = None).
Proof.
  unfold render. cbn [cards loading_text not_found_text showing_first
                      no_results_text results_text].
  destruct (loading s); cbn [negb andb].
  - split; [reflexivity|]. split; [|discriminate].
    intros _. repeat split. destruct (length (allPokemonUrls s) =? 0);
      discriminate.
  - split; [|split; [discriminate | reflexivity]].
    destruct (length (filteredPokemon s) =? 0) eqn:E; [|reflexivity].
    destruct (negb (String.eqb (searchTerm s) "")); [|reflexivity].
    apply Nat.eqb_eq in E. destruct (filteredPokemon s);
      [reflexivity | discriminate].
Qed.

(** X11.  The two "no results" texts of the page always come together,
    and of the three closing messages (the count of the first records,
    "no results", "results") at most one is shown; with the loading flag
    down, one of them is shown unless the box is empty and nothing is
    hydrated. *)
Theorem page_closing_messages (s : State) :
  not_found_text (render s) = no_results_text (render s)
  /\ Nat.b2n (match showing_first (render s) with
              | Some _ => true | None => false end)
     + Nat.b2n (no_results_text (render s))
     + Nat.b2n (results_text (render s))
     = (if loading s then 0
        else if String.eqb (searchTerm s) "" then
               (if 0 <? length (pokemonDetails s) then 1 else 0)
        else 1).
Proof.
  unfold render. cbn [not_found_text showing_first no_results_text
                      results_text].
  destruct (loading s); cbn [negb andb]; [split; reflexivity|].
  destruct (String.eqb (searchTerm s) ""); cbn [negb andb].
  - rewrite andb_false_r. split; [reflexivity|].
    destruct (0 <? length (pokemonDetails s)); reflexivity.
  - rewrite andb_true_r. split; [reflexivity|].
    destruct (length (filteredPokemon s)); reflexivity.
Qed.

(** ** Sessions *)

(** X12.  Once the listing has answered with an index, in every
    configuration that any typing and any answers lead to, that index is
    still the one stored, no error is stored, the component has not
    crashed and the listing is not requested again. *)
Theorem listing_loaded_once (net0 : Net) (status : nat) (R : list Pokemon.t)
    (labels : list Label) :
  net0 INDEX_URL = Response status (ListBody R) ->
  ok status = true ->
  crashed (run (step mount (Answer 0 net0)) labels) = false
  /\ allPokemonUrls (state (run (step mount (Answer 0 net0)) labels)) = R
  /\ error (state (run (step mount (Answer 0 net0)) labels)) = None
  /\ ~ In AwaitIndex (pending (run (step mount (Answer 0 net0)) labels)).
Proof.
  intros Hnet Hok.
  assert (H : index_settled R (run (step mount (Answer 0 net0)) labels)).
  { apply run_index_settled.
    rewrite (step_index_loaded net0 status R Hnet Hok).
    unfold index_settled.
    cbn [crashed state pending allPokemonUrls error pokemonDetails
         setAllPokemonUrls initial_state].
    refine (conj eq_refl (conj eq_refl (conj eq_refl (conj _ _)))).
    - destruct R; [intros [] | intros [H|[]]; discriminate].
    - intros ->. split; reflexivity. }
  destruct H as (H1 & H2 & H3 & H4 & _). auto.
Qed.

Lemma listing_loaded_once_witness :
  allPokemonUrls
    (state (run (step mount (Answer 0 Sample.api))
                [Answer 0 Sample.api; Input "zzz"; Input "";
                 Answer 0 Sample.down]))
  = Sample.index
  /\ ~ In AwaitIndex
       (pending (run (step mount (Answer 0 Sample.api))
                     [Answer 0 Sample.api; Input "zzz"; Input "";
                      Answer 0 Sample.down])).
Proof.
  destruct (listing_loaded_once Sample.api 200 Sample.index
              [Answer 0 Sample.api; Input "zzz"; Input "";
               Answer 0 Sample.down] eq_refl eq_refl)
    as (_ & Hi & _ & Hp).
  split; [exact Hi | exact Hp].
Defined.

(** X13.  After a failed load of the listing, as long as the search box
    is not cleared, nothing at all is requested, whatever the user types:
    the error stays on the page, with no card. *)
Theorem failure_stays_until_cleared (net : Net) (labels : list Label) :
  index_fetch_failed net = true ->
  Forall keeps_query labels ->
  pending (run (step mount (Answer 0 net)) labels) = []
  /\ log (run (step mount (Answer 0 net)) labels) = [INDEX_URL]
  /\ pokemonDetails (state (run (step mount (Answer 0 net)) labels)) = []
  /\ error_banner (render (state (run (step mount (Answer 0 net)) labels)))
     = Some INDEX_LOAD_ERROR.
Proof.
  intros Hfail Hlabels.
  destruct (index_failure_is_shown net Hfail) as (Hf & Hlog & _).
  destruct (failure_persists labels Hlabels _ Hf)
    as ((_ & Hp & _ & Hd & _ & He) & Hlog').
  rewrite Hlog', Hlog. auto.
Qed.

Lemma failure_stays_until_cleared_witness :
  pending (run (step mount (Answer 0 Sample.down))
               [Input "a"; Input "ab"; Answer 0 Sample.api]) = []
  /\ log (run (step mount (Answer 0 Sample.down))
              [Input "a"; Input "ab"; Answer 0 Sample.api]) = [INDEX_URL]
  /\ pokemonDetails
       (state (run (step mount (Answer 0 Sample.down))
                   [Input "a"; Input "ab"; Answer 0 Sample.api])) = []
  /\ error_banner
       (render (state (run (step mount (Answer 0 Sample.down))
                           [Input "a"; Input "ab"; Answer 0 Sample.api])))
     = Some INDEX_LOAD_ERROR.
Proof.
  apply (failure_stays_until_cleared Sample.down
           [Input "a"; Input "ab"; Answer 0 Sample.api]).
  - reflexivity.
  - repeat constructor; discriminate.
Defined.

(** A configuration in which the index is stored, for X14: the first
    load of the sample. *)
Lemma runtime_matches_handler_witness :
  let c := run mount [Answer 0 Sample.api; Answer 0 Sample.api] in
  state (run c [Input "char"; Answer (length (pending c)) Sample.api])
  = settle (handleSearchChange Sample.api (state c) "char") (state c).
Proof.
  intros c.
  apply (runtime_matches_handler Sample.index c "char" Sample.api).
  apply (first_load_settled Sample.api Sample.api 200 Sample.index);
    reflexivity.
Defined.

Lemma effect2_lowers_flag (s : State) :
  allPokemonUrls s <> [] ->
  pokemonDetails s <> [] ->
  loading s = true ->
  effect2 s = (setLoading false s, []).
Proof.
  intros Hi Hd Hl. unfold effect2. rewrite Hl.
  destruct (allPokemonUrls s); [congruence|].
  destruct (pokemonDetails s); [congruence | reflexivity].
Qed.

Lemma effect2_starts_window (s : State) :
  allPokemonUrls s <> [] ->
  pokemonDetails s = [] ->
  loading s = true ->
  effect2 s
  = (setError None (setLoading true s),
     [AwaitBatch (firstn POKEMON_DISPLAY_LIMIT (allPokemonUrls s))]).
Proof.
  intros Hi Hd Hl. unfold effect2. rewrite Hl, Hd.
  rewrite <- (fetchInitialDisplayData_start_nonempty s Hi).
  destruct (allPokemonUrls s); [congruence | reflexivity].
Qed.

Lemma first_match_nonempty (s : State) (raw : string) (found : Pokemon.t) :
  first_match_in_index s raw found -> allPokemonUrls s <> [].
Proof.
  unfold first_match_in_index. destruct (allPokemonUrls s); discriminate.
Qed.

(** X15.  The page shows some records and is not loading; the user types
    a query that none of them matches and that an entry of the index
    matches.  The second effect lowers the loading flag that the handler
    has just raised: while the detail is being fetched the page shows no
    loading text, no card, and the "not found" text. *)
Theorem search_in_flight_says_not_found (c : Config) (raw : string)
    (found : Pokemon.t) :
  crashed c = false ->
  loading (state c) = false ->
  pokemonDetails (state c) <> [] ->
  raw <> "" ->
  nothing_to_show (state c) raw ->
  first_match_in_index (state c) raw found ->
  pending (step c (Input raw)) = pending c ++ [AwaitDetail (Pokemon.url found)]
  /\ loading_text (render (state (step c (Input raw)))) = None
  /\ cards (render (state (step c (Input raw)))) = []
  /\ not_found_text (render (state (step c (Input raw)))) = true.
Proof.
  intros Hc Hl Hd Hraw Hnone Hfound.
  assert (Hi : allPokemonUrls (state c) <> [])
    by exact (first_match_nonempty _ _ _ Hfound).
  unfold step. rewrite Hc. unfold handleSearchChange_start.
  rewrite (typed_query raw Hraw).
  rewrite (filter_none _ _ (no_match_ignoring_case _ _ Hnone)).
  cbn [length Nat.ltb Nat.leb].
  unfold first_match_in_index in Hfound. rewrite Hfound.
  set (s1 := setLoading true (setSearchTerm (toLowerCase raw) (state c))).
  assert (E1 : effects (state c) s1 = (setLoading false s1, [])).
  { unfold effects.
    rewrite (deps1_same_intro (state c) s1 eq_refl eq_refl).
    assert (D2 : deps2_same (state c) s1 = false).
    { unfold deps2_same. cbn [s1 loading setLoading]. rewrite Hl.
      cbn [Bool.eqb]. now rewrite andb_false_r. }
    rewrite D2, (effect2_lowers_flag s1 Hi Hd eq_refl). reflexivity. }
  assert (E2 : effects s1 (setLoading false s1) = (setLoading false s1, [])).
  { apply effects_idle; [reflexivity|].
    apply deps1_same_intro; reflexivity. }
  unfold commit. rewrite E1, E2. cbn [state pending app].
  split; [reflexivity|].
  assert (Hshown : filteredPokemon (setLoading false s1) = []).
  { unfold filteredPokemon. cbn [s1 searchTerm pokemonDetails setLoading
                                  setSearchTerm].
    rewrite (typed_query raw Hraw). apply filter_none, Hnone. }
  unfold render. rewrite Hshown.
  cbn [loading_text cards not_found_text loading setLoading s1 searchTerm
       setSearchTerm length Nat.eqb negb andb].
  rewrite (typed_query raw Hraw). repeat split.
Qed.

Lemma search_in_flight_says_not_found_witness :
  let c := run mount [Answer 0 Sample.api; Answer 0 Sample.api] in
  pending (step c (Input "char")) = pending c ++ [AwaitDetail "p/4"]
  /\ loading_text (render (state (step c (Input "char")))) = None
  /\ cards (render (state (step c (Input "char")))) = []
  /\ not_found_text (render (state (step c (Input "char")))) = true.
Proof.
  intros c.
  apply (search_in_flight_says_not_found c "char" Sample.charmander).
  - reflexivity.
  - vm_compute. reflexivity.
  - vm_compute. discriminate.
  - discriminate.
  - intros p Hp. vm_compute in Hp.
    repeat (destruct Hp as [<-|Hp]; [vm_compute; reflexivity|]). destruct Hp.
  - vm_compute. reflexivity.
Defined.

(** X16.  The page is not loading and shows no record; the user types a
    query that an entry of the index matches.  As soon as the handler
    raises the loading flag the second effect starts the hydration of the
    display window as well: two requests are in flight, the detail of
    the entry and the batch of the window. *)
Theorem search_on_empty_page_starts_window (c : Config) (raw : string)
    (found : Pokemon.t) :
  crashed c = false ->
  loading (state c) = false ->
  pokemonDetails (state c) = [] ->
  raw <> "" ->
  first_match_in_index (state c) raw found ->
  pending (step c (Input raw))
  = pending c
    ++ [AwaitDetail (Pokemon.url found);
        AwaitBatch (firstn POKEMON_DISPLAY_LIMIT (allPokemonUrls (state c)))]
  /\ loading (state (step c (Input raw))) = true.
Proof.
  intros Hc Hl Hd Hraw Hfound.
  assert (Hi : allPokemonUrls (state c) <> [])
    by exact (first_match_nonempty _ _ _ Hfound).
  unfold step. rewrite Hc. unfold handleSearchChange_start.
  rewrite (typed_query raw Hraw), Hd. cbn [filter length Nat.ltb Nat.leb].
  unfold first_match_in_index in Hfound. rewrite Hfound.
  set (s1 := setLoading true (setSearchTerm (toLowerCase raw) (state c))).
  set (s2 := setError None (setLoading true s1)).
  assert (E1 : effects (state c) s1
               = (s2, [AwaitBatch (firstn POKEMON_DISPLAY_LIMIT
                                          (allPokemonUrls (state c)))])).
  { unfold effects.
    rewrite (deps1_same_intro (state c) s1 eq_refl eq_refl).
    assert (D2 : deps2_same (state c) s1 = false).
    { unfold deps2_same. cbn [s1 loading setLoading]. rewrite Hl.
      cbn [Bool.eqb]. now rewrite andb_false_r. }
    rewrite D2, (effect2_starts_window s1 Hi Hd eq_refl). reflexivity. }
  assert (E2 : effects s1 s2 = (s2, [])).
  { unfold effects.
    assert (D2 : deps2_same s1 s2 = true) by apply (deps2_same_refl s1).
    rewrite D2, (effect1_index s2 Hi).
    destruct (deps1_same s1 s2); reflexivity. }
  unfold commit. rewrite E1, E2. cbn [state pending app].
  split; reflexivity.
Qed.

Lemma search_on_empty_page_starts_window_witness :
  let c := run mount [Answer 0 Sample.api; Answer 0 Sample.api; Input "zzz"] in
  pending (step c (Input "a"))
  = pending c
    ++ [AwaitDetail "p/1";
        AwaitBatch (firstn POKEMON_DISPLAY_LIMIT (allPokemonUrls (state c)))]
  /\ loading (state (step c (Input "a"))) = true.
Proof.
  intros c.
  apply (search_on_empty_page_starts_window c "a" Sample.bulbasaur);
    try (vm_compute; reflexivity).
  discriminate.
Defined.

(** ** The size of the hydrated set *)

Lemma display_limit_positive : 1 <= POKEMON_DISPLAY_LIMIT.
Proof. apply Nat.leb_le. vm_compute. reflexivity. Qed.

Lemma start_batch_fits (s : State) (batch : list Pokemon.t) :
  In (AwaitBatch batch) (snd (fetchInitialDisplayData_start s)) ->
  length batch <= POKEMON_DISPLAY_LIMIT.
Proof.
  destruct (allPokemonUrls s) as [|e l] eqn:E.
  - rewrite fetchInitialDisplayData_start_empty by exact E. intros [].
  - rewrite fetchInitialDisplayData_start_nonempty
      by (rewrite E; discriminate).
    intros [H|[]]. injection H as <-. apply firstn_le_length.
Qed.

Lemma effects_batch_fits (prev cur : State) (batch : list Pokemon.t) :
  In (AwaitBatch batch) (snd (effects prev cur)) ->
  length batch <= POKEMON_DISPLAY_LIMIT.
Proof.
  unfold effects.
  assert (H1 : ~ In (AwaitBatch batch)
                    (if deps1_same prev cur then [] else effect1 cur)).
  { destruct (deps1_same prev cur); [intros []|].
    unfold effect1. destruct (_ && _); [intros [H|[]]; discriminate|intros []]. }
  destruct (deps2_same prev cur).
  - cbn [snd]. rewrite app_nil_r. intros H. contradiction.
  - destruct (effect2 cur) as [s2 started2] eqn:E2. cbn [snd].
    intros H. apply in_app_or in H. destruct H as [H|H]; [contradiction|].
    unfold effect2 in E2.
    destruct (_ && _ && _) in E2.
    + apply (start_batch_fits cur). now rewrite E2.
    + destruct (_ && _ && _) in E2; injection E2 as <- <-; destruct H.
Qed.

Lemma commit_batch_fits (prev cur : State) (batch : list Pokemon.t) :
  In (AwaitBatch batch) (snd (commit prev cur)) ->
  length batch <= POKEMON_DISPLAY_LIMIT.
Proof.
  unfold commit.
  destruct (effects prev cur) as [s1 started1] eqn:E1.
  destruct (effects cur s1) as [s2 started2] eqn:E2. cbn [snd].
  intros H. apply in_app_or in H. destruct H as [H|H].
  - apply (effects_batch_fits prev cur). now rewrite E1.
  - apply (effects_batch_fits cur s1). now rewrite E2.
Qed.

Lemma handler_batch_fits (s : State) (raw : string)
    (batch : list Pokemon.t) :
  In (AwaitBatch batch) (snd (handleSearchChange_start s raw)) ->
  length batch <= POKEMON_DISPLAY_LIMIT.
Proof.
  unfold handleSearchChange_start.
  destruct (String.eqb (toLowerCase raw) "").
  - apply start_batch_fits.
  - destruct (0 <? length _); [intros []|].
    destruct (find _ (allPokemonUrls s)); [intros [H|[]]; discriminate|].
    intros [].
Qed.

Lemma step_within_window (c : Config) (l : Label) :
  within_window c -> within_window (step c l).
Proof.
  intros [Hd Hb]. unfold within_window, step.
  destruct (crashed c); [split; assumption|].
  destruct l as [raw | i net].
  - destruct (handleSearchChange_start_spec (state c) raw)
      as (_ & _ & _ & _ & Sd).
    pose proof (handler_batch_fits (state c) raw) as Hs.
    destruct (handleSearchChange_start (state c) raw) as [s1 started].
    destruct (commit_spec (state c) s1) as ((_ & _ & Fd & _) & _).
    pose proof (commit_batch_fits (state c) s1) as Hcm.
    destruct (commit (state c) s1) as [s2 started'].
    cbn [fst snd state pending] in *. split.
    + rewrite Fd. destruct Sd as [-> | ->]; [exact Hd | cbn; lia].
    + intros batch H. apply in_app_or in H. destruct H as [H|H]; [auto|].
      apply in_app_or in H. destruct H as [H|H]; auto.
  - destruct (nth_error (pending c) i) as [task|] eqn:Hnth;
      [|split; assumption].
    assert (Hrest : forall batch,
              In (AwaitBatch batch) (remove_nth i (pending c)) ->
              length batch <= POKEMON_DISPLAY_LIMIT).
    { intros batch H. apply Hb. eapply remove_nth_In, H. }
    destruct (outcome (resume net task (state c))) as [[s1|]|] eqn:Hrun;
      cbn [state pending]; try (split; assumption).
    destruct (commit_spec (state c) s1) as ((_ & _ & Fd & _) & _).
    pose proof (commit_batch_fits (state c) s1) as Hcm.
    destruct (commit (state c) s1) as [s2 started'].
    cbn [fst snd state pending] in *. split.
    + rewrite Fd. destruct task as [|batch|url].
      * cbn [resume] in Hrun. now rewrite (fetchAllUrls_details _ _ _ Hrun).
      * rewrite resume_batch in Hrun. injection Hrun as <-.
        cbn [pokemonDetails setLoading setPokemonDetails].
        etransitivity; [apply records_length|].
        apply Hb. eapply nth_error_In, Hnth.
      * rewrite resume_detail in Hrun. injection Hrun as <-.
        cbn [pokemonDetails setLoading setPokemonDetails].
        pose proof display_limit_positive.
        destruct (detail_of net url); cbn [length]; lia.
    + intros batch H. apply in_app_or in H. destruct H as [H|H]; auto.
Qed.

(** X18.  At every moment of a session the page holds at most
    [POKEMON_DISPLAY_LIMIT] hydrated records, whatever the user types and
    whatever the remote API answers. *)
Theorem session_within_window (labels : list Label) :
  length (pokemonDetails (state (run mount labels))) <= POKEMON_DISPLAY_LIMIT.
Proof.
  assert (H : forall c, within_window c -> within_window (run c labels)).
  { induction labels as [|l labels IH]; intros c Hc; [exact Hc|].
    apply IH, step_within_window, Hc. }
  apply H. rewrite mount_waits_for_index. split.
  - cbn. lia.
  - intros batch [Hb|[]]. discriminate.
Qed.

(** ** The card *)

(** X19.  Two different types among those that [getTypeColorClass] knows
    never get the same colour classes. *)
Theorem known_types_have_distinct_colors (a b : string) :
  In a case_labels ->
  In b case_labels ->
  a <> b ->
  getTypeColorClass a <> getTypeColorClass b.
Proof.
  intros Ha Hb Hab. unfold case_labels in Ha, Hb. cbn [In] in Ha, Hb.
  repeat (destruct Ha as [<-|Ha]; [|]); try contradiction;
    repeat (destruct Hb as [<-|Hb]; [|]); try contradiction;
    try congruence; vm_compute; discriminate.
Qed.

Lemma known_types_have_distinct_colors_witness :
  getTypeColorClass "fire" <> getTypeColorClass "water".
Proof.
  apply (known_types_have_distinct_colors "fire" "water").
  - right. left. reflexivity.
  - right. right. left. reflexivity.
  - discriminate.
Defined.

(** X20.  [getTypeColorClass] gives the colour classes of its [default]
    branch exactly to the names that are none of its seventeen labels,
    compared as they stand: a name in upper case is not known. *)
Theorem default_color_iff_unknown_type (type : string) :
  getTypeColorClass type = DEFAULT_TYPE_COLOR <-> ~ In type case_labels.
Proof.
  split.
  - intros H Hin. unfold case_labels in Hin. cbn [In] in Hin.
    repeat (destruct Hin as [<-|Hin]; [vm_compute in H; discriminate|]).
    exact Hin.
  - intros Hno. unfold getTypeColorClass.
    repeat match goal with
    | |- (if String.eqb type ?l then _ else _) = _ =>
        let E := fresh "E" in
        destruct (String.eqb type l) eqn:E;
        [ apply String.eqb_eq in E; exfalso; apply Hno; rewrite E;
          unfold case_labels; cbn [In]; tauto | ]
    end.
    reflexivity.
Qed.

Lemma weakness_badge_keys (pokemon : CardProps.t) :
  map Badge.key (Card.weakness_badges (PokemonCard pokemon))
  = CardProps.weaknesses pokemon.
Proof.
  unfold PokemonCard. cbn [Card.weakness_badges].
  destruct (CardProps.weaknesses pokemon) as [|w l]; [reflexivity|].
  cbn [length Nat.ltb Nat.leb]. rewrite map_map. cbn [Badge.key].
  apply map_id.
Qed.

(** X21.  On the card of a record made by [fetchPokemonDetail] the keys
    of the weakness badges are pairwise distinct, as React asks of the
    keys of siblings. *)
Theorem weakness_badge_keys_distinct (net : Net) (url : string)
    (d : PokemonDetail.t) (artwork : option string) :
  detail_of net url = Some d ->
  NoDup (map Badge.key
             (Card.weakness_badges (PokemonCard (card_props d artwork)))).
Proof.
  intros H. rewrite weakness_badge_keys. cbn [card_props CardProps.weaknesses].
  exact (detail_of_NoDup net url d H).
Qed.

Lemma weakness_badge_keys_distinct_witness :
  NoDup (map Badge.key
             (Card.weakness_badges
                (PokemonCard (card_props Sample.paras_detail None)))).
Proof.
  apply (weakness_badge_keys_distinct Sample.api "p/46" Sample.paras_detail).
  reflexivity.
Defined.

Lemma weakness_loop_all_refused (net : Net) (types : list TypeSlot.t) :
  (forall t, In t types -> type_refused net t) ->
  forall w, outcome (weakness_loop net types w) = Resolved w.
Proof.
  induction types as [|t rest IH]; intros H w; cbn [weakness_loop].
  - reflexivity.
  - destruct (H t (or_introl eq_refl)) as (status & body & Hnet & Hok).
    rewrite outcome_bind. unfold fetch. rewrite Hnet.
    cbn [outcome fst]. rewrite Hok. cbn [negb].
    apply IH. intros t' Ht'. apply H. now right.
Qed.

(** X22.  When the detail of a creature is fetched and the request for
    each of its types is answered with a non-success status, the record
    is made with no weakness, and its card shows one badge per type and,
    under the weaknesses, the "No data available" text and no badge. *)
Theorem refused_types_show_no_data (net : Net) (url : string) (status : nat)
    (name : string) (id : Z) (sprites : Sprites.t)
    (types : list TypeSlot.t) (artwork : option string) :
  net url = Response status (DetailBody name id sprites types) ->
  ok status = true ->
  (forall t, In t types -> type_refused net t) ->
  exists d,
    outcome (fetchPokemonDetail net url) = Resolved (Some d)
    /\ PokemonDetail.weaknesses d = []
    /\ Card.no_data (PokemonCard (card_props d artwork)) = true
    /\ Card.weakness_badges (PokemonCard (card_props d artwork)) = []
    /\ map Badge.text (Card.type_badges (PokemonCard (card_props d artwork)))
       = map (fun t => TypeRef.name (TypeSlot.type t)) types.
Proof.
  intros Hnet Hok Hrefused.
  exists (PokemonDetail.mk name id sprites types []).
  split.
  - unfold fetchPokemonDetail.
    rewrite outcome_try_catch_ret, outcome_bind. unfold fetch.
    rewrite Hnet. cbn [outcome fst]. rewrite Hok. cbn [negb].
    rewrite outcome_bind. cbn [json outcome fst ret].
    rewrite outcome_bind, (weakness_loop_all_refused net types Hrefused).
    reflexivity.
  - split; [reflexivity|]. split; [reflexivity|]. split; [reflexivity|].
    unfold PokemonCard. cbn [Card.type_badges card_props CardProps.types
                             PokemonDetail.types].
    rewrite map_map. reflexivity.
Qed.

Lemma refused_types_show_no_data_witness :
  exists d,
    outcome (fetchPokemonDetail
               (fun u => if String.eqb u "p/92"
                         then Response 200
                                (DetailBody "gastly" 92 Sample.art
                                            [Sample.type_of "ghost"])
                         else Response 503 NotJson)
               "p/92") = Resolved (Some d)
    /\ PokemonDetail.weaknesses d = []
    /\ Card.no_data (PokemonCard (card_props d None)) = true
    /\ Card.weakness_badges (PokemonCard (card_props d None)) = []
    /\ map Badge.text (Card.type_badges (PokemonCard (card_props d None)))
       = map (fun t => TypeRef.name (TypeSlot.type t))
             [Sample.type_of "ghost"].
Proof.
  apply (refused_types_show_no_data _ "p/92" 200 "gastly" 92%Z Sample.art
           [Sample.type_of "ghost"] None).
  - reflexivity.
  - reflexivity.
  - intros t [<-|[]]. exists 503, NotJson. split; reflexivity.
Defined.

(** ** Witnesses and the empty listing *)


Lemma clearing_requests_index_again_witness :
  pending (step (step mount (Answer 0 Sample.down)) (Input ""))
  = [AwaitIndex]
  /\ error (state (step (step mount (Answer 0 Sample.down)) (Input "")))
     = None.
Proof.
  apply (clearing_requests_index_again (step mount (Answer 0 Sample.down))).
  apply (index_failure_is_shown Sample.down). reflexivity.
Defined.

(** X25.  When the listing answers with an empty list, nothing is
    requested any more, and the page keeps the text that says the listing
    is loading, with no error and no card, whatever is answered, until
    the user edits the search box. *)
Theorem empty_listing_keeps_loading_text (net0 : Net) (status : nat)
    (answers : list (nat * Net)) :
  net0 INDEX_URL = Response status (ListBody []) ->
  ok status = true ->
  let c := run (step mount (Answer 0 net0))
               (map (fun a => Answer (fst a) (snd a)) answers) in
  pending c = []
  /\ loading_text (render (state c)) = Some LOADING_INDEX
  /\ error_banner (render (state c)) = None
  /\ cards (render (state c)) = [].
Proof.
  intros Hnet Hok c.
  assert (Hc : c = step mount (Answer 0 net0)).
  { unfold c. rewrite (step_index_loaded net0 status [] Hnet Hok).
    induction answers as [|[i net] answers IH]; [reflexivity|].
    cbn [map run fold_left fst snd]. unfold run in IH.
    replace (step _ (Answer i net)) with
      {| state := setAllPokemonUrls [] initial_state; pending := [];
         log := [INDEX_URL]; crashed := false |}; [exact IH|].
    unfold step. cbn [crashed pending]. destruct i; reflexivity. }
  rewrite Hc, (step_index_loaded net0 status [] Hnet Hok).
  repeat split.
Qed.

Lemma empty_listing_keeps_loading_text_witness :
  let empty : Net := fun _ => Response 200 (ListBody []) in
  let c := run (step mount (Answer 0 empty))
               (map (fun a => Answer (fst a) (snd a))
                    [(0, Sample.api); (1, Sample.down)]) in
  pending c = []
  /\ loading_text (render (state c)) = Some LOADING_INDEX
  /\ error_banner (render (state c)) = None
  /\ cards (render (state c)) = [].
Proof.
  intros empty.
  apply (empty_listing_keeps_loading_text empty 200
           [(0, Sample.api); (1, Sample.down)]); reflexivity.
Defined.
